(** * tarmac: a content-addressed tar builder (src/tarmac.go)

    A shallow embedding of [creationContext.addDir], [creationContext.addEntry]
    and [main], and the properties of the deduplicating archive they build.

    The Go program walks a directory tree; every file is hashed (SHA-512,
    base64url), its bytes are stored once under
    [rootArchivePath/.backing_store/<hash>], and every occurrence becomes a
    hard-link header that points at the stored copy.

    The file has three parts: the model (the data, the program, and the
    vocabulary the statements use), the lemmas about it, and the properties
    C1-C10 of the specification. *)

From Stdlib Require Import ZArith Lia.
From Stdlib Require Import Strings.Ascii Strings.String Strings.Byte.
From stdpp Require Import base option list gmap strings.

Local Open Scope Z_scope.
Local Open Scope string_scope.
Local Open Scope list_scope.

(** ** Data *)

(** A Go [error] value is represented by its message, [err.Error()]. *)
Definition error := string.

(** [os.FileMode] is a [uint32]; the two type bits the program tests. *)
Definition os_ModeDir : Z := Z.shiftl 1 31.
Definition os_ModeSymlink : Z := Z.shiftl 1 27.

(** [os.FileInfo] as returned by [Readdir] (an [lstat] of the entry). *)
Record FileInfo : Type := mkFileInfo {
  fi_Name : string;
  fi_Size : Z;
  fi_Mode : Z;
  fi_ModTime : Z
}.

(** [tar.Header], the fields a header written by this program carries. *)
Record Header : Type := mkHeader {
  Typeflag : Z;
  Name : string;
  Linkname : string;
  Size : Z;
  Mode : Z;
  ModTime : Z
}.

(** Assignments to the fields of a [*tar.Header]. *)
Definition set_Name (h : Header) (s : string) : Header :=
  mkHeader (Typeflag h) s (Linkname h) (Size h) (Mode h) (ModTime h).
Definition set_Typeflag (h : Header) (t : Z) : Header :=
  mkHeader t (Name h) (Linkname h) (Size h) (Mode h) (ModTime h).
Definition set_Linkname (h : Header) (s : string) : Header :=
  mkHeader (Typeflag h) (Name h) s (Size h) (Mode h) (ModTime h).
Definition set_Size (h : Header) (z : Z) : Header :=
  mkHeader (Typeflag h) (Name h) (Linkname h) z (Mode h) (ModTime h).

(** [tar.TypeLink] is the byte ['1']. *)
Definition tar_TypeLink : Z := 49.
(** [tar.TypeDir] is the byte ['5']. *)
Definition tar_TypeDir : Z := 53.

(** What the [tar.Writer] has been handed so far: headers, and the bytes one
    [io.Copy] pushed through [Write] (possibly none). *)
Inductive tar_event : Type :=
| WHeader (h : Header)
| WBody (d : list byte).

(** The faults a regular file can show: the first read (for hashing) or the
    second read (for storing) breaks after [k] bytes, or the rewind fails. *)
Record FileFaults : Type := mkFaults {
  hash_read_fault : option (nat * error);
  seek_fault : option error;
  copy_read_fault : option (nat * error)
}.

Definition no_faults : FileFaults := mkFaults None None None.

(** The source tree.  A node is what [os.OpenFile] finds at a path; a
    directory lists its children as [Readdir(0)] reports them, each with the
    node its joined path resolves to.  Path resolution is the nesting of the
    tree, so [dirPath]/[entryPath] of the Go code do not appear. *)
#[local] Unset Elimination Schemes.
Inductive fsnode : Type :=
| Unopenable (e : error)
| RegularFile (data : list byte) (flt : FileFaults)
| Directory (listing : error + list (FileInfo * fsnode)).
#[local] Set Elimination Schemes.

Definition EISDIR : error := "read: is a directory".
Definition ENOTDIR : error := "readdirent: not a directory".

(** [os.OpenFile(path, O_RDONLY, _)]: the handle is the node itself. *)
Definition os_OpenFile (n : fsnode) : error + fsnode :=
  match n with
  | Unopenable e => inl e
  | _ => inr n
  end.

(** [f.Readdir(0)]. *)
Definition File_Readdir (f : fsnode) : error + list (FileInfo * fsnode) :=
  match f with
  | Directory listing => listing
  | RegularFile _ _ => inl ENOTDIR
  | Unopenable e => inl e
  end.

(** Reading [f] to the end: the bytes delivered, then EOF ([None]) or an
    error. *)
Definition read_with (data : list byte) (flt : option (nat * error))
  : list byte * option error :=
  match flt with
  | None => (data, None)
  | Some (k, e) => (take k data, Some e)
  end.

Definition File_read_first (f : fsnode) : list byte * option error :=
  match f with
  | RegularFile data flt => read_with data (hash_read_fault flt)
  | Directory _ => ([], Some EISDIR)
  | Unopenable e => ([], Some e)
  end.

Definition File_read_again (f : fsnode) : list byte * option error :=
  match f with
  | RegularFile data flt => read_with data (copy_read_fault flt)
  | Directory _ => ([], Some EISDIR)
  | Unopenable e => ([], Some e)
  end.

(** [f.Seek(0, os.SEEK_SET)]. *)
Definition File_Seek (f : fsnode) : option error :=
  match f with
  | RegularFile _ flt => seek_fault flt
  | Directory _ => None
  | Unopenable e => Some e
  end.

(** ** The libraries the program calls

    Go's standard library is not part of the repository; its functions are
    taken as an interface.  The two [_fault] fields decide when the archive
    writer (and the stream under it) refuses a header or a body, given what
    was written before. *)
Class Extern : Type := mkExtern {
  sha512_Sum : list byte -> list byte;
  base64_URLEncoding_EncodeToString : list byte -> string;
  path_Join : list string -> string;
  tar_FileInfoHeader : FileInfo -> string -> error + Header;
  tar_WriteHeader_fault : list tar_event -> Header -> option error;
  tar_Write_fault : list tar_event -> list byte -> option (nat * error)
}.

(** ** The build context and its monad *)

Record creationContext : Type := mkCtx {
  rootArchivePath : string;
  archive : list tar_event;
  mapping : gmap string bool
}.

Inductive result (A : Type) : Type :=
| Ok (a : A)
| Fail (e : error).
Arguments Ok {A} a.
Arguments Fail {A} e.

(** A method of [*creationContext]: it may change the context and returns a
    value or an error.  The context survives an error, as the struct behind
    the pointer does. *)
Definition M (A : Type) : Type := creationContext -> result A * creationContext.

Definition ret {A} (a : A) : M A := fun ctx => (Ok a, ctx).
Definition fail {A} (e : error) : M A := fun ctx => (Fail e, ctx).
Definition bind {A B} (m : M A) (k : A -> M B) : M B :=
  fun ctx =>
    match m ctx with
    | (Ok a, ctx') => k a ctx'
    | (Fail e, ctx') => (Fail e, ctx')
    end.

Declare Scope go_scope.
Delimit Scope go_scope with go.
Notation "x <- m ;; k" := (bind m (fun x => k))
  (at level 100, m at next level, right associativity) : go_scope.
Notation "m ;; k" := (bind m (fun _ => k))
  (at level 100, right associativity) : go_scope.
Local Open Scope go_scope.

(** [if err != nil { return err }] after a call that touches no state. *)
Definition lift {A} (r : error + A) : M A :=
  match r with
  | inl e => fail e
  | inr a => ret a
  end.

Definition check (r : option error) : M unit :=
  match r with
  | Some e => fail e
  | None => ret tt
  end.

Definition set_archive (ctx : creationContext) (a : list tar_event) : creationContext :=
  mkCtx (rootArchivePath ctx) a (mapping ctx).

Definition set_mapping (ctx : creationContext) (m : gmap string bool) : creationContext :=
  mkCtx (rootArchivePath ctx) (archive ctx) m.

Section Tarmac.
Context `{Ext : Extern}.

(** [ctx.archive.WriteHeader(header)]. *)
Definition archive_WriteHeader (h : Header) : M unit :=
  fun ctx =>
    match tar_WriteHeader_fault (archive ctx) h with
    | Some e => (Fail e, ctx)
    | None => (Ok tt, set_archive ctx (archive ctx ++ [WHeader h]))
    end.

(** [io.Copy(ctx.archive, f)] where reading [f] gives [src]: a write error
    after [k] bytes leaves those bytes in the stream; otherwise everything
    read is written and a read error, if any, is returned. *)
Definition io_Copy_archive (src : list byte * option error) : M unit :=
  fun ctx =>
    match tar_Write_fault (archive ctx) (fst src) with
    | Some (k, e) => (Fail e, set_archive ctx (archive ctx ++ [WBody (take k (fst src))]))
    | None =>
        let ctx' := set_archive ctx (archive ctx ++ [WBody (fst src)]) in
        match snd src with
        | Some e => (Fail e, ctx')
        | None => (Ok tt, ctx')
        end
    end.

(** [io.Copy(hash, f)] then [hash.Sum(nil)]: a hash never refuses a write. *)
Definition io_Copy_hash (src : list byte * option error) : error + list byte :=
  match snd src with
  | Some e => inl e
  | None => inr (sha512_Sum (fst src))
  end.

(** [ctx.mapping[hashKey] = true]. *)
Definition mapping_store (hashKey : string) : M unit :=
  fun ctx => (Ok tt, set_mapping ctx (<[hashKey := true]> (mapping ctx))).

Definition get_ctx : M creationContext := fun ctx => (Ok ctx, ctx).

(** [fi.Mode()&(os.ModeDir|os.ModeSymlink) == os.ModeDir] (line 48). *)
Definition is_directory_entry (fi : FileInfo) : bool :=
  Z.eqb (Z.land (fi_Mode fi) (Z.lor os_ModeDir os_ModeSymlink)) os_ModeDir.

Definition backing_store : string := ".backing_store".

(** Lines 53-101 of [addEntry]: the entry is a file. *)
Definition addFile (archivePath : string) (fi : FileInfo) (f : fsnode) : M unit :=
  sum <- lift (io_Copy_hash (File_read_first f)) ;;
  let hashKey := base64_URLEncoding_EncodeToString sum in
  ctx <- get_ctx ;;
  let backingFileArchivePath := path_Join [rootArchivePath ctx; backing_store; hashKey] in
  (match mapping ctx !! hashKey with
   | None =>
       check (File_Seek f) ;;
       header <- lift (tar_FileInfoHeader fi "") ;;
       let header := set_Name header backingFileArchivePath in
       archive_WriteHeader header ;;
       io_Copy_archive (File_read_again f) ;;
       mapping_store hashKey
   | Some _ => ret tt
   end) ;;
  header <- lift (tar_FileInfoHeader fi "") ;;
  let header := set_Name header archivePath in
  let header := set_Typeflag header tar_TypeLink in
  let header := set_Linkname header backingFileArchivePath in
  let header := set_Size header 0 in
  archive_WriteHeader header.

(** [addEntry] (lines 42-102) with its call of [ctx.addDir(entryPath, _, f, _)]
    on the handle it opened left open as [addDir_f]. *)
Definition addEntry_with (addDir_f : string -> bool -> M unit)
    (archivePath : string) (fi : FileInfo) (n : fsnode) : M unit :=
  f <- lift (os_OpenFile n) ;;
  if is_directory_entry fi then
    addDir_f archivePath false
  else
    addFile archivePath fi f.

(** [addDir] (lines 22-40). *)
Fixpoint addDir (archivePath : string) (dir : fsnode) (isRoot : bool) {struct dir} : M unit :=
  match dir with
  | Directory (inr entries) =>
      (fix range (entries : list (FileInfo * fsnode)) : M unit :=
         match entries with
         | [] => ret tt
         | (fi, n) :: rest =>
             if isRoot && String.eqb (fi_Name fi) backing_store then range rest
             else
               (addEntry_with (fun ap r => addDir ap n r)
                              (path_Join [archivePath; fi_Name fi]) fi n ;;
                range rest)
         end) entries
  | _ =>
      match File_Readdir dir with
      | inl err => fail err
      | inr _ => ret tt
      end
  end.

Definition addEntry (archivePath : string) (fi : FileInfo) (n : fsnode) : M unit :=
  addEntry_with (fun ap r => addDir ap n r) archivePath fi n.

End Tarmac.

(** ** Induction over the source tree *)

Section fsnode_induction.
Variable P : fsnode -> Prop.
Hypothesis P_unopenable : forall e, P (Unopenable e).
Hypothesis P_file : forall data flt, P (RegularFile data flt).
Hypothesis P_unlistable : forall e, P (Directory (inl e)).
Hypothesis P_dir : forall entries,
  Forall (fun en => P (snd en)) entries -> P (Directory (inr entries)).

Fixpoint fsnode_tree_ind (n : fsnode) : P n :=
  match n with
  | Unopenable e => P_unopenable e
  | RegularFile data flt => P_file data flt
  | Directory (inl e) => P_unlistable e
  | Directory (inr entries) =>
      P_dir entries
        ((fix all (l : list (FileInfo * fsnode)) : Forall (fun en => P (snd en)) l :=
            match l with
            | [] => List.Forall_nil _
            | en :: l' => List.Forall_cons _ en l' (fsnode_tree_ind (snd en)) (all l')
            end) entries)
  end.

End fsnode_induction.

(** ** The loop of [addDir] *)

Section Loop.
Context `{Ext : Extern}.

(** The [for _, fi := range entries] loop of [addDir], calling [addEntry]. *)
Fixpoint range_entries (archivePath : string) (isRoot : bool)
    (entries : list (FileInfo * fsnode)) : M unit :=
  match entries with
  | [] => ret tt
  | (fi, n) :: rest =>
      if isRoot && String.eqb (fi_Name fi) backing_store then
        range_entries archivePath isRoot rest
      else
        (addEntry (path_Join [archivePath; fi_Name fi]) fi n ;;
         range_entries archivePath isRoot rest)
  end.

(** Every entry of a listing handed to [addEntry], in order, until one
    fails. *)
Fixpoint dispatch_all (archivePath : string) (entries : list (FileInfo * fsnode)) : M unit :=
  match entries with
  | [] => ret tt
  | (fi, n) :: rest =>
      (addEntry (path_Join [archivePath; fi_Name fi]) fi n ;;
       dispatch_all archivePath rest)
  end.

End Loop.

(** ** Reading the archive back

    The stream as a sequence of records: each header with the body bytes that
    follow it. *)

Fixpoint leading_body (log : list tar_event) : list byte :=
  match log with
  | WBody d :: rest => d ++ leading_body rest
  | _ => []
  end.

Fixpoint records (log : list tar_event) : list (Header * list byte) :=
  match log with
  | [] => []
  | WHeader h :: rest => (h, leading_body rest) :: records rest
  | WBody _ :: rest => records rest
  end.

Definition is_link_record (r : Header * list byte) : Prop :=
  Typeflag (fst r) = tar_TypeLink.

Definition is_dir_record (r : Header * list byte) : Prop :=
  Typeflag (fst r) = tar_TypeDir.

#[local] Instance is_link_record_dec r : Decision (is_link_record r).
Proof. unfold is_link_record. apply _. Defined.

#[local] Instance is_dir_record_dec r : Decision (is_dir_record r).
Proof. unfold is_dir_record. apply _. Defined.

(** Hard-link records, and the others: the stored blobs. *)
Definition link_records (log : list tar_event) : list (Header * list byte) :=
  filter is_link_record (records log).

Definition stored_blobs (log : list tar_event) : list (Header * list byte) :=
  filter (fun r => ~ is_link_record r) (records log).

(** ** Entry kinds and names *)

(** [m&bit != 0], as [FileMode.IsDir] tests a mode bit. *)
Definition mode_has (m bit : Z) : bool := negb (Z.land m bit =? 0)%Z.

Definition not_backing_store (en : FileInfo * fsnode) : Prop :=
  fi_Name (fst en) <> ".backing_store".

#[local] Instance not_backing_store_dec en : Decision (not_backing_store en).
Proof. unfold not_backing_store. apply _. Defined.

(** ** What a walk leaves behind

    The file entries a walk reaches, and the context a walk that returns
    [nil] has built from them. *)

Record file_entry : Type := FileEntry {
  fe_path : string;
  fe_info : FileInfo;
  fe_node : fsnode
}.

(** The bytes of a regular file. *)
Definition content_of (n : fsnode) : list byte :=
  match n with
  | RegularFile data _ => data
  | _ => []
  end.

Section Specification.
Context `{Ext : Extern}.

(** The entry goes to the file branch of [addEntry]. *)
Definition is_file_entry (it : file_entry) : Prop :=
  is_directory_entry (fe_info it) = false.

Definition hashKey_of (d : list byte) : string :=
  base64_URLEncoding_EncodeToString (sha512_Sum d).

Definition backing_path (root hashKey : string) : string :=
  path_Join [root; backing_store; hashKey].

(** The header [tar.FileInfoHeader(fi, "")] builds; the empty header stands
    in where the call fails, and is never written (see [walk_Ok]). *)
Definition header_of (fi : FileInfo) : Header :=
  match tar_FileInfoHeader fi "" with
  | inr h => h
  | inl _ => mkHeader 0 "" "" 0 0 0
  end.

Definition link_header (h : Header) (archivePath target : string) : Header :=
  set_Size (set_Linkname (set_Typeflag (set_Name h archivePath) tar_TypeLink) target) 0.

Definition fe_key (e : file_entry) : string := hashKey_of (content_of (fe_node e)).

Definition blob_of (root : string) (e : file_entry) : Header * list byte :=
  (set_Name (header_of (fe_info e)) (backing_path root (fe_key e)),
   content_of (fe_node e)).

Definition link_of (root : string) (e : file_entry) : Header * list byte :=
  (link_header (header_of (fe_info e)) (fe_path e) (backing_path root (fe_key e)), []).

(** The entries dispatched to the file branch, in the order of the walk. *)
Fixpoint file_entries (archivePath : string) (dir : fsnode) (isRoot : bool)
    {struct dir} : list file_entry :=
  match dir with
  | Directory (inr entries) =>
      (fix range (entries : list (FileInfo * fsnode)) : list file_entry :=
         match entries with
         | [] => []
         | (fi, n) :: rest =>
             if isRoot && String.eqb (fi_Name fi) backing_store then range rest
             else
               (if is_directory_entry fi
                then file_entries (path_Join [archivePath; fi_Name fi]) n false
                else [FileEntry (path_Join [archivePath; fi_Name fi]) fi n])
               ++ range rest
         end) entries
  | _ => []
  end.

Fixpoint range_file_entries (archivePath : string) (isRoot : bool)
    (entries : list (FileInfo * fsnode)) : list file_entry :=
  match entries with
  | [] => []
  | (fi, n) :: rest =>
      if isRoot && String.eqb (fi_Name fi) backing_store then
        range_file_entries archivePath isRoot rest
      else
        (if is_directory_entry fi
         then file_entries (path_Join [archivePath; fi_Name fi]) n false
         else [FileEntry (path_Join [archivePath; fi_Name fi]) fi n])
        ++ range_file_entries archivePath isRoot rest
  end.

(** One file entry handled without error. *)
Definition store_file (ctx : creationContext) (e : file_entry) : creationContext :=
  let data := content_of (fe_node e) in
  let hashKey := fe_key e in
  let target := backing_path (rootArchivePath ctx) hashKey in
  let h := header_of (fe_info e) in
  match mapping ctx !! hashKey with
  | None =>
      mkCtx (rootArchivePath ctx)
            (archive ctx ++ [WHeader (set_Name h target); WBody data;
                             WHeader (link_header h (fe_path e) target)])
            (<[hashKey := true]> (mapping ctx))
  | Some _ =>
      set_archive ctx (archive ctx ++ [WHeader (link_header h (fe_path e) target)])
  end.

(** An entry the file branch can handle to the end as far as the source tree
    is concerned: a regular file whose first read succeeds, with a header. *)
Definition storable (e : file_entry) : Prop :=
  (exists data flt, fe_node e = RegularFile data flt /\ hash_read_fault flt = None)
  /\ tar_FileInfoHeader (fe_info e) "" = inr (header_of (fe_info e)).

(** The records a walk writes for the file entries [es], when the hash keys
    in [earlier] have been stored before: a stored blob the first time a key
    is met, and a link for every entry. *)
Fixpoint walk_records (root : string) (earlier : list string) (es : list file_entry)
  : list (Header * list byte) :=
  match es with
  | [] => []
  | e :: es =>
      (if decide (fe_key e ∈ earlier) then [] else [blob_of root e])
      ++ link_of root e :: walk_records root (fe_key e :: earlier) es
  end.

(** The entries that are the first with their hash key. *)
Fixpoint first_seen (earlier : list string) (es : list file_entry) : list file_entry :=
  match es with
  | [] => []
  | e :: es =>
      if decide (fe_key e ∈ earlier) then first_seen (fe_key e :: earlier) es
      else e :: first_seen (fe_key e :: earlier) es
  end.

(** The table holds exactly the keys in [earlier]. *)
Definition table_is (m : gmap string bool) (earlier : list string) : Prop :=
  forall k, k ∈ earlier <-> is_Some (m !! k).

(** No header built from file metadata is a hard link ([FileInfoHeader] has
    no such case), so a link record is one the program made. *)
Definition headers_never_link : Prop :=
  forall fi h, tar_FileInfoHeader fi "" = inr h -> Typeflag h <> tar_TypeLink.

(** *** Failures

    The ways handling one entry can fail: which call returned the error, and
    the context at that moment. *)

Inductive file_failure (archivePath : string) (fi : FileInfo) (f : fsnode)
    (ctx : creationContext) : error -> creationContext -> Prop :=
| fail_read d e :
    File_read_first f = (d, Some e) ->
    file_failure archivePath fi f ctx e ctx
| fail_seek d e :
    File_read_first f = (d, None) ->
    mapping ctx !! hashKey_of d = None ->
    File_Seek f = Some e ->
    file_failure archivePath fi f ctx e ctx
| fail_header d e :
    File_read_first f = (d, None) ->
    (mapping ctx !! hashKey_of d = None -> File_Seek f = None) ->
    tar_FileInfoHeader fi "" = inl e ->
    file_failure archivePath fi f ctx e ctx
| fail_blob_header d h e :
    File_read_first f = (d, None) ->
    mapping ctx !! hashKey_of d = None ->
    File_Seek f = None ->
    tar_FileInfoHeader fi "" = inr h ->
    tar_WriteHeader_fault (archive ctx)
      (set_Name h (backing_path (rootArchivePath ctx) (hashKey_of d))) = Some e ->
    file_failure archivePath fi f ctx e ctx
| fail_blob_write d h k e :
    let blob := set_Name h (backing_path (rootArchivePath ctx) (hashKey_of d)) in
    File_read_first f = (d, None) ->
    mapping ctx !! hashKey_of d = None ->
    File_Seek f = None ->
    tar_FileInfoHeader fi "" = inr h ->
    tar_WriteHeader_fault (archive ctx) blob = None ->
    tar_Write_fault (archive ctx ++ [WHeader blob]) (fst (File_read_again f)) = Some (k, e) ->
    file_failure archivePath fi f ctx e
      (set_archive ctx (archive ctx
                        ++ [WHeader blob; WBody (take k (fst (File_read_again f)))]))
| fail_blob_read d h e :
    let blob := set_Name h (backing_path (rootArchivePath ctx) (hashKey_of d)) in
    File_read_first f = (d, None) ->
    mapping ctx !! hashKey_of d = None ->
    File_Seek f = None ->
    tar_FileInfoHeader fi "" = inr h ->
    tar_WriteHeader_fault (archive ctx) blob = None ->
    tar_Write_fault (archive ctx ++ [WHeader blob]) (fst (File_read_again f)) = None ->
    snd (File_read_again f) = Some e ->
    file_failure archivePath fi f ctx e
      (set_archive ctx (archive ctx ++ [WHeader blob; WBody (fst (File_read_again f))]))
| fail_link_after_blob d h e :
    let target := backing_path (rootArchivePath ctx) (hashKey_of d) in
    let blob := set_Name h target in
    let stored := archive ctx ++ [WHeader blob; WBody (fst (File_read_again f))] in
    File_read_first f = (d, None) ->
    mapping ctx !! hashKey_of d = None ->
    File_Seek f = None ->
    tar_FileInfoHeader fi "" = inr h ->
    tar_WriteHeader_fault (archive ctx) blob = None ->
    tar_Write_fault (archive ctx ++ [WHeader blob]) (fst (File_read_again f)) = None ->
    snd (File_read_again f) = None ->
    tar_WriteHeader_fault stored (link_header h archivePath target) = Some e ->
    file_failure archivePath fi f ctx e
      (mkCtx (rootArchivePath ctx) stored (<[hashKey_of d := true]> (mapping ctx)))
| fail_link d h e :
    File_read_first f = (d, None) ->
    is_Some (mapping ctx !! hashKey_of d) ->
    tar_FileInfoHeader fi "" = inr h ->
    tar_WriteHeader_fault (archive ctx)
      (link_header h archivePath (backing_path (rootArchivePath ctx) (hashKey_of d)))
      = Some e ->
    file_failure archivePath fi f ctx e ctx.

Inductive entry_failure (it : file_entry) (ctx : creationContext)
  : error -> creationContext -> Prop :=
| fail_open e :
    os_OpenFile (fe_node it) = inl e ->
    entry_failure it ctx e ctx
| fail_list f e :
    is_directory_entry (fe_info it) = true ->
    os_OpenFile (fe_node it) = inr f ->
    File_Readdir f = inl e ->
    entry_failure it ctx e ctx
| fail_file f e ctx' :
    is_directory_entry (fe_info it) = false ->
    os_OpenFile (fe_node it) = inr f ->
    file_failure (fe_path it) (fe_info it) f ctx e ctx' ->
    entry_failure it ctx e ctx'.

(** What [addEntry] does for an entry before it goes on to the entries
    below it. *)
Definition enter (it : file_entry) : M unit :=
  f <- lift (os_OpenFile (fe_node it)) ;;
  if is_directory_entry (fe_info it) then
    (_ <- lift (File_Readdir f) ;; ret tt)
  else
    addFile (fe_path it) (fe_info it) f.

(** The entries one after the other, until one fails. *)
Fixpoint each (its : list file_entry) : M unit :=
  match its with
  | [] => ret tt
  | it :: rest => (enter it ;; each rest)
  end.

(** Every entry handed to [addEntry], directories too, in the order of the
    calls. *)
Fixpoint dispatched (archivePath : string) (dir : fsnode) (isRoot : bool)
    {struct dir} : list file_entry :=
  match dir with
  | Directory (inr entries) =>
      (fix range (entries : list (FileInfo * fsnode)) : list file_entry :=
         match entries with
         | [] => []
         | (fi, n) :: rest =>
             if isRoot && String.eqb (fi_Name fi) backing_store then range rest
             else
               FileEntry (path_Join [archivePath; fi_Name fi]) fi n
               :: (if is_directory_entry fi
                   then dispatched (path_Join [archivePath; fi_Name fi]) n false
                   else [])
               ++ range rest
         end) entries
  | _ => []
  end.

Fixpoint range_dispatched (archivePath : string) (isRoot : bool)
    (entries : list (FileInfo * fsnode)) : list file_entry :=
  match entries with
  | [] => []
  | (fi, n) :: rest =>
      if isRoot && String.eqb (fi_Name fi) backing_store then
        range_dispatched archivePath isRoot rest
      else
        FileEntry (path_Join [archivePath; fi_Name fi]) fi n
        :: (if is_directory_entry fi
            then dispatched (path_Join [archivePath; fi_Name fi]) n false
            else [])
        ++ range_dispatched archivePath isRoot rest
  end.

(** Nothing written is taken back: the archive only grows at its end. *)
Definition grows (ctx ctx' : creationContext) : Prop :=
  exists written, archive ctx' = archive ctx ++ written.

(** Every key in the table has its stored blob in the archive: a record
    under the key's backing path whose body hashes to the key. *)
Definition table_backed (ctx : creationContext) : Prop :=
  forall k, is_Some (mapping ctx !! k) ->
    exists h d, (h, d) ∈ records (archive ctx)
                /\ Name h = backing_path (rootArchivePath ctx) k
                /\ hashKey_of d = k.

(** *** Trees and writers without faults *)



(** *** A self-contained archive *)

(** A stored blob of that name is among the records. *)
Definition has_blob (rs : list (Header * list byte)) (name : string) : Prop :=
  exists j b, rs !! j = Some b /\ ~ is_link_record b /\ Name (fst b) = name.

(** Every hard-link record points at a stored blob that comes before it. *)
Definition links_resolved (rs : list (Header * list byte)) : Prop :=
  forall i l, rs !! i = Some l -> is_link_record l ->
    exists j b, (j < i)%nat /\ rs !! j = Some b /\ ~ is_link_record b
                /\ Name (fst b) = Linkname (fst l).

(** Every stored blob lies at the backing path of the hash of its own body,
    and the record after it is a link to it. *)
Definition blobs_linked (root : string) (rs : list (Header * list byte)) : Prop :=
  forall i b, rs !! i = Some b -> ~ is_link_record b ->
    Name (fst b) = backing_path root (hashKey_of (snd b))
    /\ exists l, rs !! S i = Some l /\ is_link_record l
                 /\ Linkname (fst l) = Name (fst b).

(** *** The table over time *)

(** From [ctx] to [ctx']: the same root name, every entry of the table kept,
    and every new entry set to [true]. *)
Definition table_grows (ctx ctx' : creationContext) : Prop :=
  rootArchivePath ctx' = rootArchivePath ctx
  /\ mapping ctx ⊆ mapping ctx'
  /\ forall k, mapping ctx !! k = None -> is_Some (mapping ctx' !! k) ->
                mapping ctx' !! k = Some true.

End Specification.

(** ** The command *)

(** The command line after [flag.Parse]. *)
Record Invocation : Type := mkInvocation {
  os_Args0 : string;
  shouldCompress : bool;
  flag_Args : list string
}.

(** The machine the command runs on: path functions, the text of
    [flag.PrintDefaults], the node at an absolute path, and whether closing
    the archive or the output stream (plain or compressing) fails. *)
Record Host : Type := mkHost {
  filepath_Abs : string -> error + string;
  filepath_Split : string -> string * string;
  flag_PrintDefaults : string;
  node_at : string -> fsnode;
  archive_Close_fault : list tar_event -> option error;
  output_Close_fault : bool -> list tar_event -> option error
}.

(** How the process ends: the argument of [os.Exit] (0 when [main] returns),
    what went to the error stream, and what the archive writer was handed. *)
Record Exit : Type := mkExit {
  exit_code : Z;
  stderr : list string;
  stdout : list tar_event
}.

Definition newline : string := String "010"%char EmptyString.

Definition usage_line (program : string) : string :=
  "usage: " +:+ program +:+ " [OPTIONS] [FILE]" +:+ newline.

Definition error_line (err : error) : string :=
  "Error: " +:+ err +:+ newline.

(** [main] (lines 104-156). *)
Definition main `{Ext : Extern} (host : Host) (inv : Invocation) : Exit :=
  if negb (length (flag_Args inv) =? 1)%nat then
    let program := snd (filepath_Split host (os_Args0 inv)) in
    mkExit 2 [usage_line program; flag_PrintDefaults host] []
  else
    match filepath_Abs host (nth 0 (flag_Args inv) "") with
    | inl err => mkExit (-1) [error_line err] []
    | inr root =>
        match os_OpenFile (node_at host root) with
        | inl err => mkExit (-1) [error_line err] []
        | inr f =>
            let rootArchivePath := snd (filepath_Split host root) in
            let ctx := mkCtx rootArchivePath [] ∅ in
            match addDir rootArchivePath f true ctx with
            | (Fail err, ctx) => mkExit (-1) [error_line err] (archive ctx)
            | (Ok _, ctx) =>
                match archive_Close_fault host (archive ctx) with
                | Some err => mkExit (-1) [error_line err] (archive ctx)
                | None =>
                    match output_Close_fault host (shouldCompress inv) (archive ctx) with
                    | Some err => mkExit (-1) [error_line err] (archive ctx)
                    | None => mkExit 0 [] (archive ctx)
                    end
                end
            end
        end
    end.

Section CommandSteps.
Context `{Ext : Extern} (host : Host) (inv : Invocation).

Definition the_argument : string := nth 0 (flag_Args inv) "".

Definition walk_of (root : string) (f : fsnode) : result unit * creationContext :=
  addDir (snd (filepath_Split host root)) f true
         (mkCtx (snd (filepath_Split host root)) [] ∅).

(** Every step of the run goes through, leaving the context [ctx']. *)
Definition run_succeeds (ctx' : creationContext) : Prop :=
  exists root f,
    filepath_Abs host the_argument = inr root
    /\ os_OpenFile (node_at host root) = inr f
    /\ walk_of root f = (Ok tt, ctx')
    /\ archive_Close_fault host (archive ctx') = None
    /\ output_Close_fault host (shouldCompress inv) (archive ctx') = None.

(** The first step that fails returns [err]: resolving the root, opening it,
    the walk, closing the archive, closing the output. *)
Definition run_fails (err : error) : Prop :=
  filepath_Abs host the_argument = inl err
  \/ exists root,
       filepath_Abs host the_argument = inr root
       /\ (os_OpenFile (node_at host root) = inl err
           \/ exists f,
                os_OpenFile (node_at host root) = inr f
                /\ ((exists ctx', walk_of root f = (Fail err, ctx'))
                    \/ exists ctx',
                         walk_of root f = (Ok tt, ctx')
                         /\ (archive_Close_fault host (archive ctx') = Some err
                             \/ archive_Close_fault host (archive ctx') = None
                                /\ output_Close_fault host (shouldCompress inv)
                                     (archive ctx') = Some err))).

End CommandSteps.

(** ** A concrete platform and sample trees

    An instance of the library interface to run the program on: the digest
    is the content after a [#] byte, its encoding the bytes as text, paths
    are joined with a slash, and headers are built in the manner of
    [tar.FileInfoHeader].  The archive writer's faults are left open. *)
Module Demo.

Definition os_ModeSocket : Z := Z.shiftl 1 24.

Definition os_ModePerm : Z := 511.

Definition tar_TypeReg : Z := 48.

Definition tar_TypeSymlink : Z := 50.

Definition join (elem : list string) : string :=
  String.concat "/" (filter (fun s => s <> "") elem).

Definition FileInfoHeader (fi : FileInfo) (link : string) : error + Header :=
  let perm := Z.land (fi_Mode fi) os_ModePerm in
  if Z.eqb (Z.land (fi_Mode fi) os_ModeDir) os_ModeDir then
    inr (mkHeader tar_TypeDir (fi_Name fi +:+ "/") "" 0 perm (fi_ModTime fi))
  else if Z.eqb (Z.land (fi_Mode fi) os_ModeSymlink) os_ModeSymlink then
    inr (mkHeader tar_TypeSymlink (fi_Name fi) link 0 perm (fi_ModTime fi))
  else if Z.eqb (Z.land (fi_Mode fi) os_ModeSocket) os_ModeSocket then
    inl "archive/tar: sockets not supported"
  else
    inr (mkHeader tar_TypeReg (fi_Name fi) "" (fi_Size fi) perm (fi_ModTime fi)).

Definition ext (header_fault : list tar_event -> Header -> option error)
    (body_fault : list tar_event -> list byte -> option (nat * error)) : Extern :=
  mkExtern (fun d => Byte.x23 :: d) string_of_list_byte join FileInfoHeader
           header_fault body_fault.

(** A writer that never fails. *)
Definition sound : Extern := ext (fun _ _ => None) (fun _ _ => None).

Definition reg (name : string) (size : Z) : FileInfo := mkFileInfo name size 420 0.

Definition subdir (name : string) : FileInfo := mkFileInfo name 4096 (Z.lor os_ModeDir 493) 0.

Definition symlink (name : string) : FileInfo := mkFileInfo name 1 (Z.lor os_ModeSymlink 511) 0.

Definition file (s : string) : fsnode := RegularFile (list_byte_of_string s) no_faults.

(** [root/{a.txt="hi", b/c.txt="hi", d.txt="bye"}]. *)
Definition tree : fsnode :=
  Directory (inr [ (reg "a.txt" 2, file "hi");
                   (subdir "b", Directory (inr [ (reg "c.txt" 2, file "hi") ]));
                   (reg "d.txt" 3, file "bye") ]).

(** Three files with the same bytes, one of them deeper. *)
Definition triplets : fsnode :=
  Directory (inr [ (reg "x" 4, file "same");
                   (subdir "sub", Directory (inr [ (reg "y" 4, file "same") ]));
                   (reg "z" 4, file "same") ]).

(** The contents of [tree] under other names, modes, times and order. *)
Definition shuffled : fsnode :=
  Directory (inr [ (mkFileInfo "z.bin" 3 384 7, file "bye");
                   (subdir "deep",
                    Directory (inr [ (subdir "er",
                                      Directory (inr [ (mkFileInfo "x" 2 292 9, file "hi") ])) ]));
                   (reg "y" 2, file "hi") ]).

(** A file in the middle of the tree that cannot be opened. *)
Definition denied : error := "open root/b/locked: permission denied".

Definition broken : fsnode :=
  Directory (inr [ (reg "a.txt" 2, file "hi");
                   (subdir "b", Directory (inr [ (reg "locked" 5, Unopenable denied);
                                                 (reg "never" 1, file "x") ]));
                   (reg "d.txt" 3, file "bye") ]).

(** Empty files among others. *)
Definition hollow : fsnode :=
  Directory (inr [ (reg "e1" 0, file "");
                   (reg "f" 1, file "x");
                   (subdir "sub", Directory (inr [ (reg "e2" 0, file "") ]));
                   (mkFileInfo "e3" 0 256 5, file "") ]).

Definition fresh (root : string) : creationContext := mkCtx root [] ∅.

End Demo.

(** A host for the sample trees: [/srv/root] is [Demo.tree], [/srv/broken] is
    [Demo.broken], nothing else exists; closing never fails. *)
Fixpoint split_path (s : string) : string * string :=
  match s with
  | EmptyString => (EmptyString, EmptyString)
  | String c rest =>
      let (d, b) := split_path rest in
      if String.eqb d "" then
        if Ascii.eqb c "/" then ("/", b) else ("", String c b)
      else (String c d, b)
  end.

Definition demo_node_at (p : string) : fsnode :=
  if String.eqb p "/srv/root" then Demo.tree
  else if String.eqb p "/srv/broken" then Demo.broken
  else Unopenable ("open " +:+ p +:+ ": no such file or directory").

Definition demo_host : Host :=
  mkHost (fun p => inr ("/srv/" +:+ p)) split_path
         ("  -compress" +:+ newline +:+ "        compress output using gzip" +:+ newline)
         demo_node_at (fun _ => None) (fun _ _ => None).

(** * Properties *)

(** ** Reasoning about the monad *)

Lemma bind_Ok_inv {A B} (m : M A) (k : A -> M B) ctx b ctx' :
  bind m k ctx = (Ok b, ctx') ->
  exists a ctx1, m ctx = (Ok a, ctx1) /\ k a ctx1 = (Ok b, ctx').
Proof.
  unfold bind. destruct (m ctx) as [[a|e] ctx1]; intros H; [eauto | discriminate].
Qed.

Lemma bind_Fail_inv {A B} (m : M A) (k : A -> M B) ctx e ctx' :
  bind m k ctx = (Fail e, ctx') ->
  m ctx = (Fail e, ctx') \/
  exists a ctx1, m ctx = (Ok a, ctx1) /\ k a ctx1 = (Fail e, ctx').
Proof.
  unfold bind. destruct (m ctx) as [[a|e0] ctx1]; intros H; [eauto | left; congruence].
Qed.

Lemma bind_Ok_eq {A B} (m : M A) (k : A -> M B) ctx a ctx1 :
  m ctx = (Ok a, ctx1) -> bind m k ctx = k a ctx1.
Proof. unfold bind. by intros ->. Qed.

Lemma bind_Fail_eq {A B} (m : M A) (k : A -> M B) ctx e ctx1 :
  m ctx = (Fail e, ctx1) -> bind m k ctx = (Fail e, ctx1).
Proof. unfold bind. by intros ->. Qed.

Lemma lift_Ok_inv {A} (r : error + A) ctx a ctx' :
  lift r ctx = (Ok a, ctx') -> r = inr a /\ ctx' = ctx.
Proof. destruct r; cbv; intros H; by simplify_eq. Qed.

Lemma lift_Fail_inv {A} (r : error + A) ctx e ctx' :
  lift r ctx = (Fail e, ctx') -> r = inl e /\ ctx' = ctx.
Proof. destruct r; cbv; intros H; by simplify_eq. Qed.

Lemma check_Ok_inv (r : option error) ctx u ctx' :
  check r ctx = (Ok u, ctx') -> r = None /\ ctx' = ctx.
Proof. destruct r; cbv; intros H; by simplify_eq. Qed.

Lemma check_Fail_inv (r : option error) ctx e ctx' :
  check r ctx = (Fail e, ctx') -> r = Some e /\ ctx' = ctx.
Proof. destruct r; cbv; intros H; by simplify_eq. Qed.

Lemma bind_ext {A B} (m : M A) (k1 k2 : A -> M B) ctx :
  (forall a c, k1 a c = k2 a c) -> bind m k1 ctx = bind m k2 ctx.
Proof. intros Hk. unfold bind. destruct (m ctx) as [[a|e] c]; [apply Hk|done]. Qed.

Lemma bind_assoc {A B C} (m : M A) (k : A -> M B) (k' : B -> M C) ctx :
  bind (bind m k) k' ctx = bind m (fun a => bind (k a) k') ctx.
Proof. unfold bind. by destruct (m ctx) as [[a|e] c]. Qed.

Lemma bind_ret_unit (m : M unit) ctx : bind m (fun _ => ret tt) ctx = m ctx.
Proof. unfold bind, ret. by destruct (m ctx) as [[[]|e] c]. Qed.

(** ** The walk, as the source has it and when it returns [nil] *)

Section Walk.
Context `{Ext : Extern}.

Lemma addDir_listing archivePath entries isRoot :
  addDir archivePath (Directory (inr entries)) isRoot
  = range_entries archivePath isRoot entries.
Proof.
  simpl. induction entries as [|[fi n] rest IH]; [done|].
  simpl. rewrite IH. done.
Qed.

(** [addDir] as the source has it: list the directory, return on error,
    otherwise run the loop. *)
Lemma addDir_eq archivePath dir isRoot :
  addDir archivePath dir isRoot
  = (entries <- lift (File_Readdir dir) ;; range_entries archivePath isRoot entries).
Proof.
  destruct dir as [e|data flt|[e|entries]]; try reflexivity.
  rewrite addDir_listing. reflexivity.
Qed.

(** [addEntry] as the source has it. *)
Lemma addEntry_eq archivePath fi n :
  addEntry archivePath fi n
  = (f <- lift (os_OpenFile n) ;;
     if is_directory_entry fi then addDir archivePath f false
     else addFile archivePath fi f).
Proof.
  unfold addEntry, addEntry_with.
  destruct n; reflexivity.
Qed.

Lemma file_entries_listing archivePath entries isRoot :
  file_entries archivePath (Directory (inr entries)) isRoot
  = range_file_entries archivePath isRoot entries.
Proof.
  simpl. induction entries as [|[fi n] rest IH]; [done|].
  simpl. by rewrite IH.
Qed.

Lemma dispatched_listing archivePath entries isRoot :
  dispatched archivePath (Directory (inr entries)) isRoot
  = range_dispatched archivePath isRoot entries.
Proof.
  simpl. induction entries as [|[fi n] rest IH]; [done|].
  simpl. by rewrite IH.
Qed.

Lemma addFile_Ok archivePath fi f ctx u ctx' :
  addFile archivePath fi f ctx = (Ok u, ctx') ->
  storable (FileEntry archivePath fi f)
  /\ ctx' = store_file ctx (FileEntry archivePath fi f).
Proof.
  unfold addFile. intros H.
  apply bind_Ok_inv in H as (sum & c1 & Hsum & H).
  apply lift_Ok_inv in Hsum as [Hsum ->].
  apply bind_Ok_inv in H as (c & c1 & Hc & H).
  injection Hc as <- <-.
  apply bind_Ok_inv in H as ([] & c1 & Hblob & H).
  apply bind_Ok_inv in H as (h & c2 & Hh & H).
  apply lift_Ok_inv in Hh as [Hh ->].
  assert (Hfile : exists data flt, f = RegularFile data flt /\ hash_read_fault flt = None
                                   /\ sum = sha512_Sum data).
  { unfold io_Copy_hash in Hsum.
    destruct f as [e|data flt|l]; simpl in Hsum; try discriminate.
    unfold read_with in Hsum. destruct (hash_read_fault flt) as [[k e]|] eqn:Hf;
      simpl in Hsum; [discriminate|]. injection Hsum as <-. eauto. }
  destruct Hfile as (data & flt & -> & Hflt & ->).
  assert (Hhdr : header_of fi = h) by (unfold header_of; by rewrite Hh).
  split.
  { split; simpl; [eauto | by rewrite Hhdr]. }
  unfold store_file, fe_key, hashKey_of, backing_path. simpl. rewrite Hhdr.
  change (base64_URLEncoding_EncodeToString (sha512_Sum data)) with (hashKey_of data) in *.
  unfold archive_WriteHeader in H.
  destruct (mapping ctx !! hashKey_of data) as [b|] eqn:Hm.
  - injection Hblob as <-.
    destruct (tar_WriteHeader_fault _ _); [discriminate|].
    by injection H as <- <-.
  - apply bind_Ok_inv in Hblob as ([] & c3 & Hseek & Hblob).
    apply check_Ok_inv in Hseek as [Hseek ->].
    apply bind_Ok_inv in Hblob as (h' & c3 & Hh' & Hblob).
    apply lift_Ok_inv in Hh' as [Hh' ->].
    assert (h' = h) as -> by congruence.
    apply bind_Ok_inv in Hblob as ([] & c3 & Hwh & Hblob).
    apply bind_Ok_inv in Hblob as ([] & c4 & Hcp & Hblob).
    unfold archive_WriteHeader in Hwh.
    destruct (tar_WriteHeader_fault (archive ctx) _); [discriminate|].
    injection Hwh as <-.
    unfold io_Copy_archive in Hcp. simpl in Hcp.
    destruct (tar_Write_fault _ _) as [[k e]|]; [discriminate|].
    unfold read_with in Hcp.
    destruct (copy_read_fault flt) as [[k e]|]; simpl in Hcp; [discriminate|].
    injection Hcp as <-.
    unfold mapping_store in Hblob. injection Hblob as <-.
    simpl in H.
    destruct (tar_WriteHeader_fault _ _); [discriminate|].
    injection H as <- <-. unfold set_archive; simpl.
    by rewrite <- !app_assoc.
Qed.

Lemma addEntry_Ok_open archivePath fi n ctx u ctx' :
  addEntry archivePath fi n ctx = (Ok u, ctx') ->
  if is_directory_entry fi then addDir archivePath n false ctx = (Ok u, ctx')
  else addFile archivePath fi n ctx = (Ok u, ctx').
Proof.
  rewrite addEntry_eq. intros H.
  apply bind_Ok_inv in H as (f & c1 & Hf & H).
  apply lift_Ok_inv in Hf as [Hf ->].
  assert (f = n) as -> by (destruct n; simpl in Hf; congruence).
  by destruct (is_directory_entry fi).
Qed.

(** A walk that returns [nil] has handled exactly the file entries of the
    tree, one after the other, each to the end. *)
Lemma walk_Ok dir : forall archivePath isRoot ctx u ctx',
  addDir archivePath dir isRoot ctx = (Ok u, ctx') ->
  Forall storable (file_entries archivePath dir isRoot)
  /\ ctx' = foldl store_file ctx (file_entries archivePath dir isRoot).
Proof.
  induction dir as [e|data flt|e|entries IH] using fsnode_tree_ind;
    intros archivePath isRoot ctx u ctx';
    try (intros H; cbn [addDir File_Readdir] in H; discriminate H).
  rewrite addDir_listing, file_entries_listing.
  revert ctx. induction IH as [|[fi n] rest IHn _ IHrest]; intros ctx H.
  - injection H as _ <-. by split.
  - simpl in *.
    destruct (isRoot && String.eqb (fi_Name fi) backing_store); [by apply IHrest|].
    apply bind_Ok_inv in H as ([] & c1 & He & H).
    apply IHrest in H as [Hrest ->].
    apply addEntry_Ok_open in He.
    rewrite foldl_app, Forall_app.
    destruct (is_directory_entry fi).
    + apply IHn in He as [Hn ->]. by split.
    + apply addFile_Ok in He as [Hn ->]. split; [|done].
      split; [|done]. by apply Forall_singleton.
Qed.

End Walk.

(** ** Records of a growing archive *)

Lemma leading_body_app_header l h l' :
  leading_body (l ++ WHeader h :: l') = leading_body l.
Proof.
  induction l as [|[h0|d] l IH]; simpl; [done..|].
  by rewrite IH.
Qed.

Lemma records_app_header l h l' :
  records (l ++ WHeader h :: l') = records l ++ records (WHeader h :: l').
Proof.
  induction l as [|[h0|d] l IH]; simpl in *; [done| |done].
  by rewrite IH, leading_body_app_header.
Qed.

Lemma records_blob_link l b d k :
  records (l ++ [WHeader b; WBody d; WHeader k]) = records l ++ [(b, d); (k, [])].
Proof. rewrite records_app_header. simpl. by rewrite app_nil_r. Qed.

Lemma records_link l k :
  records (l ++ [WHeader k]) = records l ++ [(k, [])].
Proof. by rewrite records_app_header. Qed.

(** ** First occurrences and the table *)

Section Dedup.
Context `{Ext : Extern}.

Lemma first_seen_fresh earlier es e :
  e ∈ first_seen earlier es -> (fe_key e ∉ earlier) /\ e ∈ es.
Proof.
  revert earlier. induction es as [|e0 es IH]; intros earlier; simpl; [by inversion 1|].
  destruct (decide (fe_key e0 ∈ earlier)) as [Hin|Hnin].
  - intros [Hk He]%IH. split; [|by right].
    intros Hk'. apply Hk. by right.
  - intros [->|[Hk He]%IH]%elem_of_cons; [split; [done|by left]|].
    split; [|by right]. intros Hk'. apply Hk. by right.
Qed.

Lemma first_seen_NoDup earlier es : NoDup (fe_key <$> first_seen earlier es).
Proof.
  revert earlier. induction es as [|e es IH]; intros earlier; simpl; [constructor|].
  destruct (decide (fe_key e ∈ earlier)); [apply IH|].
  rewrite fmap_cons. constructor; [|apply IH].
  intros (e' & Hk & He')%list_elem_of_fmap.
  apply first_seen_fresh in He' as [Hk' _]. apply Hk'. rewrite <- Hk. by left.
Qed.

Lemma first_seen_keys earlier es k :
  k ∈ fe_key <$> first_seen earlier es <-> k ∈ fe_key <$> es /\ k ∉ earlier.
Proof.
  revert earlier. induction es as [|e es IH]; intros earlier; simpl.
  { split; [by inversion 1|by intros [? _]]. }
  destruct (decide (fe_key e ∈ earlier)) as [Hin|Hnin];
    rewrite ?fmap_cons, ?elem_of_cons, IH, elem_of_cons.
  - split.
    + intros [Hk Hn]. split; [by right|]. intros Hk'. apply Hn. by right.
    + intros [[->|Hk] Hn]; [done|]. split; [done|].
      intros [->|?]; done.
  - split.
    + intros [->|[Hk Hn]]; [by split; [left|]|]. split; [by right|].
      intros Hk'. apply Hn. by right.
    + intros [[->|Hk] Hn]; [by left|].
      destruct (decide (k = fe_key e)) as [->|Hne]; [by left|]. right.
      split; [done|]. by intros [?|?].
Qed.

Lemma first_seen_all_earlier es : forall earlier,
  Forall (fun e => fe_key e ∈ earlier) es -> first_seen earlier es = [].
Proof.
  induction es as [|e es IH]; intros earlier Hall; simpl; [done|].
  apply Forall_cons in Hall as [He Hes].
  rewrite decide_True by done. apply IH.
  eapply Forall_impl; [exact Hes|]. intros e' He'. by right.
Qed.

Lemma first_seen_app es1 : forall earlier es2,
  first_seen earlier (es1 ++ es2)
  = first_seen earlier es1 ++ first_seen (reverse (fe_key <$> es1) ++ earlier) es2.
Proof.
  induction es1 as [|e es1 IH]; intros earlier es2; simpl; [done|].
  rewrite IH, reverse_cons, <- app_assoc. simpl.
  by destruct (decide _).
Qed.

Lemma store_file_root ctx e : rootArchivePath (store_file ctx e) = rootArchivePath ctx.
Proof. unfold store_file. by destruct (mapping ctx !! fe_key e). Qed.

Lemma replay_root es : forall ctx,
  rootArchivePath (foldl store_file ctx es) = rootArchivePath ctx.
Proof.
  induction es as [|e es IH]; intros ctx; simpl; [done|].
  by rewrite IH, store_file_root.
Qed.

Lemma table_is_empty : table_is ∅ [].
Proof.
  intros k. rewrite lookup_empty. split; [by inversion 1|by intros [? ?]].
Qed.

Lemma table_is_lookup m earlier k :
  table_is m earlier -> (is_Some (m !! k) <-> k ∈ earlier).
Proof. intros Ht. symmetry. apply Ht. Qed.

Lemma store_file_table ctx e earlier :
  table_is (mapping ctx) earlier ->
  table_is (mapping (store_file ctx e)) (fe_key e :: earlier).
Proof.
  intros Ht k. unfold store_file. rewrite elem_of_cons, (Ht k).
  destruct (mapping ctx !! fe_key e) as [b|] eqn:Hm; simpl.
  - split; [intros [->|?]; eauto|by right].
  - rewrite lookup_insert. case_decide as Hk; subst.
    + split; [eauto|by left].
    + split; [by intros [?|?]|by right].
Qed.

Lemma store_file_records ctx e earlier :
  table_is (mapping ctx) earlier ->
  records (archive (store_file ctx e))
  = records (archive ctx)
    ++ (if decide (fe_key e ∈ earlier) then [] else [blob_of (rootArchivePath ctx) e])
    ++ [link_of (rootArchivePath ctx) e].
Proof.
  intros Ht. unfold store_file.
  destruct (mapping ctx !! fe_key e) as [b|] eqn:Hm; simpl.
  - rewrite decide_True by (apply Ht; eauto). by rewrite records_link.
  - rewrite decide_False by (rewrite (Ht _), Hm; by intros [? ?]).
    by rewrite records_blob_link.
Qed.

Lemma replay_records es : forall ctx earlier,
  table_is (mapping ctx) earlier ->
  records (archive (foldl store_file ctx es))
  = records (archive ctx) ++ walk_records (rootArchivePath ctx) earlier es.
Proof.
  induction es as [|e es IH]; intros ctx earlier Ht; simpl; [by rewrite app_nil_r|].
  rewrite (IH _ (fe_key e :: earlier)) by by apply store_file_table.
  rewrite (store_file_records _ _ earlier Ht), store_file_root.
  by rewrite <- !app_assoc.
Qed.

Lemma replay_table es : forall ctx earlier,
  table_is (mapping ctx) earlier ->
  table_is (mapping (foldl store_file ctx es)) (reverse (fe_key <$> es) ++ earlier).
Proof.
  induction es as [|e es IH]; intros ctx earlier Ht; simpl; [done|].
  rewrite reverse_cons, <- app_assoc. simpl.
  apply IH. by apply store_file_table.
Qed.

Lemma walk_records_links root es : forall earlier,
  Forall storable es -> headers_never_link ->
  filter is_link_record (walk_records root earlier es) = link_of root <$> es.
Proof.
  intros earlier Hs Hnl. revert earlier.
  induction Hs as [|e es [_ He] _ IH]; intros earlier; simpl; [done|].
  rewrite filter_app, filter_cons_True by done.
  rewrite IH. destruct (decide _); [done|].
  rewrite filter_cons_False, filter_nil; [done|].
  unfold is_link_record. simpl. by apply (Hnl (fe_info e)).
Qed.

Lemma walk_records_blobs root es : forall earlier,
  Forall storable es -> headers_never_link ->
  filter (fun r => ~ is_link_record r) (walk_records root earlier es)
  = blob_of root <$> first_seen earlier es.
Proof.
  intros earlier Hs Hnl. revert earlier.
  induction Hs as [|e es [_ He] _ IH]; intros earlier; simpl; [done|].
  rewrite filter_app, filter_cons_False by (intros H; by apply H).
  rewrite IH. destruct (decide _); [done|].
  rewrite filter_cons_True; [done|].
  unfold is_link_record. simpl. by apply (Hnl (fe_info e)).
Qed.

(** Entry by entry: a link, or a stored blob and then a link. *)
Lemma walk_records_chunks root es : forall earlier,
  exists chunks,
    walk_records root earlier es = concat chunks
    /\ Forall2 (fun e c => c = [link_of root e] \/ c = [blob_of root e; link_of root e])
               es chunks.
Proof.
  induction es as [|e es IH]; intros earlier; simpl.
  - exists []. split; [done|constructor].
  - destruct (IH (fe_key e :: earlier)) as (chunks & -> & Hall).
    destruct (decide _).
    + exists ([link_of root e] :: chunks). split; [done|]. constructor; [by left|done].
    + exists ([blob_of root e; link_of root e] :: chunks). split; [done|].
      constructor; [by right|done].
Qed.

Lemma walk_records_elem root es r : forall earlier,
  r ∈ walk_records root earlier es ->
  exists e, e ∈ es /\ (r = blob_of root e \/ r = link_of root e).
Proof.
  induction es as [|e es IH]; intros earlier; simpl; [by inversion 1|].
  rewrite elem_of_app, elem_of_cons.
  intros [Hb|[->|Hr]].
  - destruct (decide _); [by inversion Hb|].
    apply list_elem_of_singleton in Hb as ->. exists e. split; [by left|by left].
  - exists e. split; [by left|by right].
  - apply IH in Hr as (e' & He' & Hr). exists e'. split; [by right|done].
Qed.

Lemma walk_from_fresh root archivePath dir isRoot u ctx' :
  addDir archivePath dir isRoot (mkCtx root [] ∅) = (Ok u, ctx') ->
  Forall storable (file_entries archivePath dir isRoot)
  /\ records (archive ctx') = walk_records root [] (file_entries archivePath dir isRoot)
  /\ table_is (mapping ctx') (reverse (fe_key <$> file_entries archivePath dir isRoot)).
Proof.
  intros [Hs ->]%walk_Ok. split; [done|]. split.
  - by rewrite (replay_records _ (mkCtx root [] ∅) [] table_is_empty).
  - rewrite <- (app_nil_r (reverse _)).
    apply (replay_table _ (mkCtx root [] ∅) []), table_is_empty.
Qed.

Lemma fe_key_fmap (es : list file_entry) :
  fe_key <$> es = hashKey_of <$> ((fun e => content_of (fe_node e)) <$> es).
Proof. by rewrite <- list_fmap_compose. Qed.

(** Only entries that fail the directory test are file entries. *)
Lemma file_entries_not_directory dir : forall archivePath isRoot e,
  e ∈ file_entries archivePath dir isRoot -> is_directory_entry (fe_info e) = false.
Proof.
  induction dir as [err|data flt|err|entries IH] using fsnode_tree_ind;
    intros archivePath isRoot e; try by inversion 1.
  rewrite file_entries_listing.
  induction IH as [|[fi n] rest IHn _ IHrest]; simpl; [by inversion 1|].
  destruct (isRoot && String.eqb (fi_Name fi) backing_store); [done|].
  rewrite elem_of_app. intros [He|He]; [|by apply IHrest].
  destruct (is_directory_entry fi) eqn:Hfi.
  - by apply IHn in He.
  - by apply list_elem_of_singleton in He as ->.
Qed.

End Dedup.

Lemma header_of_not_link `{Ext : Extern} fi :
  headers_never_link -> Typeflag (header_of fi) <> tar_TypeLink.
Proof.
  intros Hnl. unfold header_of.
  destruct (tar_FileInfoHeader fi "") as [e|h] eqn:Hh; [discriminate|].
  by apply (Hnl fi).
Qed.

Lemma demo_never_link hf bf : @headers_never_link (Demo.ext hf bf).
Proof.
  intros fi h H. change (Demo.FileInfoHeader fi "" = inr h) in H.
  unfold Demo.FileInfoHeader in H.
  repeat (destruct (Z.eqb _ _) in H; [try discriminate H; injection H as <-; discriminate|]).
  injection H as <-. discriminate.
Qed.

(** ** The entry-kind test *)

Lemma land_pow2 m k :
  0 <= k -> Z.land m (2 ^ k) = if Z.testbit m k then 2 ^ k else 0.
Proof.
  intros Hk. apply Z.bits_inj'. intros i Hi.
  rewrite Z.land_spec, Z.pow2_bits_eqb by done.
  destruct (Z.eqb_spec k i) as [->|Hne].
  - destruct (Z.testbit m i); simpl.
    + by rewrite Z.pow2_bits_eqb, Z.eqb_refl.
    + by rewrite Z.bits_0.
  - rewrite andb_false_r. destruct (Z.testbit m k).
    + rewrite Z.pow2_bits_eqb by done. symmetry. by apply Z.eqb_neq.
    + by rewrite Z.bits_0.
Qed.

Lemma is_directory_entry_bits fi :
  is_directory_entry fi
  = mode_has (fi_Mode fi) os_ModeDir && negb (mode_has (fi_Mode fi) os_ModeSymlink).
Proof.
  unfold is_directory_entry, mode_has.
  rewrite Z.land_lor_distr_r.
  change os_ModeDir with (2 ^ 31). change os_ModeSymlink with (2 ^ 27).
  rewrite !land_pow2 by lia.
  by destruct (Z.testbit (fi_Mode fi) 31), (Z.testbit (fi_Mode fi) 27).
Qed.

(** ** The first error ends the walk *)

Section Abort.
Context `{Ext : Extern}.

Lemma io_Copy_hash_inv src :
  io_Copy_hash src = match snd src with
                     | Some e => inl e
                     | None => inr (sha512_Sum (fst src))
                     end.
Proof. reflexivity. Qed.

Lemma addFile_Fail archivePath fi f ctx e ctx' :
  addFile archivePath fi f ctx = (Fail e, ctx') ->
  file_failure archivePath fi f ctx e ctx'.
Proof.
  unfold addFile. intros H.
  destruct (File_read_first f) as [d re] eqn:Hread.
  apply bind_Fail_inv in H as [H|(sum & c1 & Hsum & H)].
  { apply lift_Fail_inv in H as [H ->]. rewrite io_Copy_hash_inv in H. simpl in H.
    destruct re as [e'|]; [|discriminate]. injection H as ->.
    by eapply fail_read. }
  apply lift_Ok_inv in Hsum as [Hsum ->]. rewrite io_Copy_hash_inv in Hsum. simpl in Hsum.
  destruct re as [e'|]; [discriminate|]. injection Hsum as <-.
  change (base64_URLEncoding_EncodeToString (sha512_Sum d)) with (hashKey_of d) in H.
  apply bind_Fail_inv in H as [H|(c & c1 & Hc & H)]; [discriminate|].
  injection Hc as <- <-.
  change (path_Join [rootArchivePath ctx; backing_store; hashKey_of d])
    with (backing_path (rootArchivePath ctx) (hashKey_of d)) in H.
  destruct (mapping ctx !! hashKey_of d) as [b|] eqn:Hm.
  - apply bind_Fail_inv in H as [H|([] & c1 & Hc & H)]; [discriminate|].
    injection Hc as <-.
    apply bind_Fail_inv in H as [H|(h & c1 & Hh & H)].
    { apply lift_Fail_inv in H as [H ->]. eapply fail_header; eauto. by rewrite Hm. }
    apply lift_Ok_inv in Hh as [Hh ->].
    unfold archive_WriteHeader in H.
    destruct (tar_WriteHeader_fault _ _) as [e'|] eqn:Hw; [|discriminate].
    injection H as <- <-. eapply fail_link; eauto.
  - apply bind_Fail_inv in H as [H|([] & c1 & Hblob & H)].
    + apply bind_Fail_inv in H as [H|([] & c1 & Hseek & H)].
      { apply check_Fail_inv in H as [H ->]. by eapply fail_seek. }
      apply check_Ok_inv in Hseek as [Hseek ->].
      apply bind_Fail_inv in H as [H|(h & c1 & Hh & H)].
      { apply lift_Fail_inv in H as [H ->]. by eapply fail_header. }
      apply lift_Ok_inv in Hh as [Hh ->].
      apply bind_Fail_inv in H as [H|([] & c1 & Hwh & H)].
      { unfold archive_WriteHeader in H.
        destruct (tar_WriteHeader_fault _ _) as [e'|] eqn:Hw; [|discriminate].
        injection H as <- <-. by eapply fail_blob_header. }
      unfold archive_WriteHeader in Hwh.
      destruct (tar_WriteHeader_fault _ _) as [e'|] eqn:Hw; [discriminate|].
      injection Hwh as <-.
      apply bind_Fail_inv in H as [H|([] & c1 & Hcp & H)]; [|discriminate].
      unfold io_Copy_archive in H. simpl in H.
      destruct (tar_Write_fault _ _) as [[k e']|] eqn:Hwr.
      { injection H as <- <-. unfold set_archive. cbn [rootArchivePath archive mapping].
        rewrite <- app_assoc. by eapply fail_blob_write. }
      destruct (snd (File_read_again f)) as [e'|] eqn:Hre; [|discriminate].
      injection H as <- <-. unfold set_archive. cbn [rootArchivePath archive mapping].
      rewrite <- app_assoc. by eapply fail_blob_read.
    + apply bind_Ok_inv in Hblob as ([] & c2 & Hseek & Hblob).
      apply check_Ok_inv in Hseek as [Hseek ->].
      apply bind_Ok_inv in Hblob as (h & c2 & Hh & Hblob).
      apply lift_Ok_inv in Hh as [Hh ->].
      apply bind_Ok_inv in Hblob as ([] & c2 & Hwh & Hblob).
      unfold archive_WriteHeader in Hwh.
      destruct (tar_WriteHeader_fault _ _) as [e'|] eqn:Hw; [discriminate|].
      injection Hwh as <-.
      apply bind_Ok_inv in Hblob as ([] & c3 & Hcp & Hblob).
      unfold io_Copy_archive in Hcp. simpl in Hcp.
      destruct (tar_Write_fault _ _) as [[k e']|] eqn:Hwr; [discriminate|].
      destruct (snd (File_read_again f)) as [e'|] eqn:Hre; [discriminate|].
      injection Hcp as <-. injection Hblob as <-.
      apply bind_Fail_inv in H as [H|(h' & c1 & Hh' & H)].
      { apply lift_Fail_inv in H as [H _]. congruence. }
      apply lift_Ok_inv in Hh' as [Hh' ->].
      assert (h' = h) as -> by congruence.
      unfold archive_WriteHeader, set_archive, set_mapping in H.
      cbn [rootArchivePath archive mapping] in H.
      rewrite <- app_assoc in H. cbn [app] in H.
      match type of H with
      | match ?x with _ => _ end = _ => destruct x as [e'|] eqn:Hwl; [|discriminate]
      end.
      injection H as <- <-.
      by eapply fail_link_after_blob.
Qed.

Ltac use_equations :=
  repeat (match goal with
          | H : ?l = _ |- context [?l] => rewrite H
          end; cbn [fst snd rootArchivePath archive mapping app]).

Lemma file_failure_Fail archivePath fi f ctx e ctx' :
  file_failure archivePath fi f ctx e ctx' ->
  addFile archivePath fi f ctx = (Fail e, ctx').
Proof.
  intros Hf.
  unfold addFile, bind, lift, check, io_Copy_hash, get_ctx, archive_WriteHeader,
    io_Copy_archive, mapping_store, ret, fail, set_archive, set_mapping.
  destruct Hf;
    repeat match goal with x := _ |- _ => unfold x in *; clear x end;
    unfold hashKey_of, backing_path, link_header in *;
    try match goal with H : is_Some _ |- _ => destruct H as [? ?] end;
    try match goal with
        | H : ?P -> File_Seek f = None |- _ =>
            destruct (mapping ctx !! _) eqn:?; [clear H|specialize (H eq_refl)]
        end;
    cbn [fst snd rootArchivePath archive mapping app]; use_equations;
    rewrite <- ?app_assoc; cbn [app]; use_equations; try reflexivity.
Qed.

Lemma each_app its1 its2 ctx :
  each (its1 ++ its2) ctx = (each its1 ;; each its2) ctx.
Proof.
  revert ctx. induction its1 as [|it its1 IH]; intros ctx; simpl; [done|].
  rewrite bind_assoc. by apply bind_ext.
Qed.

Lemma addEntry_flat archivePath fi n ctx :
  (forall ap isRoot c,
     addDir ap n isRoot c
     = (_ <- lift (File_Readdir n) ;; each (dispatched ap n isRoot)) c) ->
  addEntry archivePath fi n ctx
  = each (FileEntry archivePath fi n
          :: (if is_directory_entry fi then dispatched archivePath n false else [])) ctx.
Proof.
  intros IHn. rewrite addEntry_eq. simpl. unfold enter. simpl.
  destruct (os_OpenFile n) as [e|f] eqn:Hopen; [reflexivity|].
  assert (f = n) as -> by (destruct n; simpl in Hopen; congruence).
  change (lift (inr n)) with (ret (A := fsnode) n).
  unfold bind at 1 4. unfold ret at 1 2.
  destruct (is_directory_entry fi).
  - rewrite IHn. unfold bind, lift, ret, fail.
    by destruct (File_Readdir n).
  - by rewrite bind_ret_unit.
Qed.

(** The recursion of [addDir] and [addEntry] is one pass over the dispatched
    entries that stops at the first error. *)
Lemma walk_flat dir : forall archivePath isRoot ctx,
  addDir archivePath dir isRoot ctx
  = (_ <- lift (File_Readdir dir) ;; each (dispatched archivePath dir isRoot)) ctx.
Proof.
  induction dir as [e|data flt|e|entries IH] using fsnode_tree_ind;
    intros archivePath isRoot ctx; try reflexivity.
  rewrite addDir_listing, dispatched_listing.
  change (range_entries archivePath isRoot entries ctx
          = each (range_dispatched archivePath isRoot entries) ctx).
  revert ctx. induction IH as [|[fi n] rest IHn _ IHrest]; intros ctx; [done|].
  simpl in IHn. cbn [range_entries range_dispatched].
  destruct (isRoot && String.eqb (fi_Name fi) backing_store); [done|].
  rewrite app_comm_cons, each_app.
  unfold bind. rewrite <- (addEntry_flat _ _ _ _ IHn).
  destruct (addEntry _ fi n ctx) as [[[]|e] c]; [apply IHrest|done].
Qed.

Lemma enter_Fail it ctx e ctx' :
  enter it ctx = (Fail e, ctx') <-> entry_failure it ctx e ctx'.
Proof.
  unfold enter. split.
  - intros H. apply bind_Fail_inv in H as [H|(f & c1 & Hf & H)].
    { apply lift_Fail_inv in H as [H ->]. by apply fail_open. }
    apply lift_Ok_inv in Hf as [Hf ->].
    destruct (is_directory_entry (fe_info it)) eqn:Hdir.
    + apply bind_Fail_inv in H as [H|(l & c1 & _ & H)]; [|discriminate].
      apply lift_Fail_inv in H as [H ->]. by eapply fail_list.
    + apply addFile_Fail in H. by eapply fail_file.
  - intros [e0 Hopen|f e0 Hdir Hopen Hlist|f e0 c Hdir Hopen Hfile].
    + by rewrite Hopen.
    + rewrite Hopen, Hdir. simpl. unfold bind, ret. simpl. by rewrite Hlist.
    + rewrite Hopen, Hdir. simpl. unfold bind, ret. simpl.
      by apply file_failure_Fail.
Qed.

Lemma each_Fail its : forall ctx e ctx',
  each its ctx = (Fail e, ctx') <->
  exists pre it post ctx1,
    its = pre ++ it :: post
    /\ each pre ctx = (Ok tt, ctx1)
    /\ enter it ctx1 = (Fail e, ctx').
Proof.
  induction its as [|it its IH]; intros ctx e ctx'; simpl.
  - split; [discriminate|]. intros (pre & it & post & ctx1 & Hsplit & _).
    by destruct pre.
  - split.
    + intros H. apply bind_Fail_inv in H as [H|([] & c1 & Hit & H)].
      * exists [], it, its, ctx. by split.
      * apply IH in H as (pre & it' & post & ctx1 & -> & Hpre & Hfail).
        exists (it :: pre), it', post, ctx1. split; [done|]. split; [|done].
        simpl. by rewrite (bind_Ok_eq _ _ _ _ _ Hit).
    + intros (pre & it' & post & ctx1 & Hsplit & Hpre & Hfail).
      destruct pre as [|it0 pre]; simpl in Hsplit; injection Hsplit as <- ->.
      * injection Hpre as <-. by rewrite (bind_Fail_eq _ _ _ _ _ Hfail).
      * simpl in Hpre. apply bind_Ok_inv in Hpre as ([] & c1 & Hit & Hpre).
        rewrite (bind_Ok_eq _ _ _ _ _ Hit). apply IH. by exists pre, it', post, ctx1.
Qed.

Lemma grows_refl ctx : grows ctx ctx.
Proof. exists []. by rewrite app_nil_r. Qed.

Lemma grows_trans ctx1 ctx2 ctx3 : grows ctx1 ctx2 -> grows ctx2 ctx3 -> grows ctx1 ctx3.
Proof.
  intros [w1 H1] [w2 H2]. exists (w1 ++ w2). by rewrite H2, H1, app_assoc.
Qed.

Lemma addFile_grows archivePath fi f ctx r ctx' :
  addFile archivePath fi f ctx = (r, ctx') -> grows ctx ctx'.
Proof.
  destruct r as [[]|e]; intros H.
  - apply addFile_Ok in H as [_ ->]. unfold store_file.
    destruct (mapping ctx !! _); eexists; reflexivity.
  - apply addFile_Fail in H.
    destruct H; try apply grows_refl; eexists; reflexivity.
Qed.

Lemma enter_grows it ctx r ctx' : enter it ctx = (r, ctx') -> grows ctx ctx'.
Proof.
  unfold enter, bind. destruct (os_OpenFile (fe_node it)) as [e|f]; simpl.
  { intros [= <- <-]. apply grows_refl. }
  destruct (is_directory_entry (fe_info it)).
  - destruct (File_Readdir f); simpl; intros [= <- <-]; apply grows_refl.
  - apply addFile_grows.
Qed.

Lemma each_grows its : forall ctx r ctx', each its ctx = (r, ctx') -> grows ctx ctx'.
Proof.
  induction its as [|it its IH]; intros ctx r ctx'; simpl.
  { intros [= <- <-]. apply grows_refl. }
  unfold bind. destruct (enter it ctx) as [[[]|e] c1] eqn:Hit.
  - intros H. eapply grows_trans; [by eapply enter_grows|by eapply IH].
  - intros [= <- <-]. by eapply enter_grows.
Qed.

Lemma addDir_grows archivePath dir isRoot ctx r ctx' :
  addDir archivePath dir isRoot ctx = (r, ctx') -> grows ctx ctx'.
Proof.
  rewrite walk_flat. unfold bind. destruct (File_Readdir dir); simpl.
  - intros [= <- <-]. apply grows_refl.
  - apply each_grows.
Qed.

End Abort.

(** ** The table and the stored blobs *)

Section Table.
Context `{Ext : Extern}.

Lemma read_first_eof f d :
  File_read_first f = (d, None) ->
  content_of f = d
  /\ (snd (File_read_again f) = None -> fst (File_read_again f) = d).
Proof.
  destruct f as [e|data flt|l]; simpl; try discriminate.
  unfold read_with. destruct (hash_read_fault flt) as [[k e]|]; [discriminate|].
  intros [= <-]. split; [done|].
  by destruct (copy_read_fault flt) as [[k e]|].
Qed.

Lemma table_backed_keep ctx ctx' h0 w :
  rootArchivePath ctx' = rootArchivePath ctx ->
  mapping ctx' = mapping ctx ->
  archive ctx' = archive ctx \/ archive ctx' = archive ctx ++ WHeader h0 :: w ->
  table_backed ctx -> table_backed ctx'.
Proof.
  intros Hroot Hmap Harch Hb k Hk. rewrite Hmap in Hk.
  destruct (Hb k Hk) as (h & d & Hin & Hname & Hd).
  exists h, d. rewrite Hroot. split; [|done].
  destruct Harch as [->| ->]; [done|].
  rewrite records_app_header. apply elem_of_app. by left.
Qed.

Lemma table_backed_store ctx ctx' h d w :
  rootArchivePath ctx' = rootArchivePath ctx ->
  mapping ctx' = <[hashKey_of d := true]> (mapping ctx) ->
  archive ctx' = archive ctx ++ WHeader h :: WBody d :: w ->
  (w = [] \/ exists h' w', w = WHeader h' :: w') ->
  Name h = backing_path (rootArchivePath ctx) (hashKey_of d) ->
  table_backed ctx -> table_backed ctx'.
Proof.
  intros Hroot Hmap Harch Hw Hname Hb k Hk. rewrite Hmap in Hk.
  rewrite Hroot, Harch, records_app_header.
  destruct (decide (k = hashKey_of d)) as [->|Hne].
  - exists h, d. split; [|done]. apply elem_of_app. right. simpl.
    destruct Hw as [->|(h' & w' & ->)]; simpl; rewrite app_nil_r; by left.
  - rewrite lookup_insert_ne in Hk by done.
    destruct (Hb k Hk) as (h1 & d1 & Hin & Hname1 & Hd1).
    exists h1, d1. split; [|done]. apply elem_of_app. by left.
Qed.

Lemma store_file_backed ctx e :
  table_backed ctx -> table_backed (store_file ctx e).
Proof.
  unfold store_file. destruct (mapping ctx !! fe_key e) eqn:Hm.
  - eapply table_backed_keep; [done..|by right].
  - eapply table_backed_store; [done..| |done]. right. eauto.
Qed.

Lemma file_failure_backed archivePath fi f ctx e ctx' :
  file_failure archivePath fi f ctx e ctx' ->
  table_backed ctx -> table_backed ctx'.
Proof.
  intros Hf. destruct Hf as [| | | |d h k e ? Hr|d h e ? Hr|d h e ? ? ? Hr ? ? ? ? ? Hre|];
    try done.
  - eapply table_backed_keep; [done..|by right].
  - eapply table_backed_keep; [done..|by right].
  - apply read_first_eof in Hr as [_ Hagain]. specialize (Hagain Hre).
    subst stored blob target. rewrite Hagain.
    by eapply (table_backed_store _ _ _ d []); [done|done|done|by left|].
Qed.

Lemma addFile_backed archivePath fi f ctx r ctx' :
  addFile archivePath fi f ctx = (r, ctx') ->
  table_backed ctx -> table_backed ctx'.
Proof.
  destruct r as [[]|e]; intros H.
  - apply addFile_Ok in H as [_ ->]. apply store_file_backed.
  - apply addFile_Fail in H. by eapply file_failure_backed.
Qed.

Lemma enter_backed it ctx r ctx' :
  enter it ctx = (r, ctx') -> table_backed ctx -> table_backed ctx'.
Proof.
  unfold enter, bind. destruct (os_OpenFile (fe_node it)) as [e|f]; simpl.
  { by intros [= <- <-]. }
  destruct (is_directory_entry (fe_info it)).
  - destruct (File_Readdir f); simpl; by intros [= <- <-].
  - apply addFile_backed.
Qed.

Lemma each_backed its : forall ctx r ctx',
  each its ctx = (r, ctx') -> table_backed ctx -> table_backed ctx'.
Proof.
  induction its as [|it its IH]; intros ctx r ctx'; simpl.
  { by intros [= <- <-]. }
  unfold bind. destruct (enter it ctx) as [[[]|e] c1] eqn:Hit.
  - intros H Hb. eapply IH; [done|]. by eapply enter_backed.
  - intros [= <- <-]. by eapply enter_backed.
Qed.

Lemma addDir_backed archivePath dir isRoot ctx r ctx' :
  addDir archivePath dir isRoot ctx = (r, ctx') ->
  table_backed ctx -> table_backed ctx'.
Proof.
  rewrite walk_flat. unfold bind. destruct (File_Readdir dir); simpl.
  - by intros [= <- <-].
  - apply each_backed.
Qed.

Lemma addEntry_backed archivePath fi n ctx r ctx' :
  addEntry archivePath fi n ctx = (r, ctx') ->
  table_backed ctx -> table_backed ctx'.
Proof.
  rewrite (addEntry_flat _ _ _ _ (walk_flat n)). apply each_backed.
Qed.

Lemma addEntry_file_Fail archivePath fi n ctx e ctx' :
  is_directory_entry fi = false ->
  addEntry archivePath fi n ctx = (Fail e, ctx') ->
  (os_OpenFile n = inl e /\ ctx' = ctx)
  \/ (os_OpenFile n = inr n /\ file_failure archivePath fi n ctx e ctx').
Proof.
  intros Hfile. rewrite addEntry_eq, Hfile. intros H.
  apply bind_Fail_inv in H as [H|(f & c1 & Hf & H)].
  { apply lift_Fail_inv in H as [H ->]. by left. }
  apply lift_Ok_inv in Hf as [Hf ->].
  assert (f = n) as -> by (destruct n; simpl in Hf; congruence).
  right. split; [done|]. by apply addFile_Fail.
Qed.

End Table.

(** ** A walk that fails part of the way *)

Section AnyOutcome.
Context `{Ext : Extern}.

Lemma file_entries_dispatched dir : forall archivePath isRoot,
  file_entries archivePath dir isRoot
  = filter is_file_entry (dispatched archivePath dir isRoot).
Proof.
  induction dir as [e|data flt|e|entries IH] using fsnode_tree_ind;
    intros archivePath isRoot; try reflexivity.
  rewrite file_entries_listing, dispatched_listing.
  induction IH as [|[fi n] rest IHn _ IHrest]; [done|].
  simpl in *.
  destruct (isRoot && String.eqb (fi_Name fi) backing_store); [done|].
  rewrite IHrest. destruct (is_directory_entry fi) eqn:Hfi.
  - rewrite filter_cons_False by (unfold is_file_entry; simpl; by rewrite Hfi).
    by rewrite filter_app, IHn.
  - by rewrite filter_cons_True by done.
Qed.

Lemma each_Ok its : forall ctx u ctx',
  each its ctx = (Ok u, ctx') ->
  Forall storable (filter is_file_entry its)
  /\ ctx' = foldl store_file ctx (filter is_file_entry its).
Proof.
  induction its as [|it its IH]; intros ctx u ctx'; simpl.
  { intros [= <-]. by split. }
  intros H. apply bind_Ok_inv in H as ([] & c1 & Hit & H).
  apply IH in H as [Hs ->].
  unfold enter in Hit. apply bind_Ok_inv in Hit as (f & c2 & Hf & Hit).
  apply lift_Ok_inv in Hf as [Hf ->].
  assert (f = fe_node it) as -> by (destruct (fe_node it); simpl in Hf; congruence).
  destruct (is_directory_entry (fe_info it)) eqn:Hdir.
  - rewrite filter_cons_False by (unfold is_file_entry; by rewrite Hdir).
    apply bind_Ok_inv in Hit as (l & c3 & Hl & Hit).
    apply lift_Ok_inv in Hl as [_ ->]. by injection Hit as <-.
  - rewrite filter_cons_True by done.
    apply addFile_Ok in Hit as [Hst ->]. destruct it. by split; [constructor|].
Qed.

(** What a failing entry has added to the records: nothing, or the record of
    its own stored blob, whole or cut short, under a key not stored before. *)
Lemma entry_failure_records it ctx e ctx' earlier :
  entry_failure it ctx e ctx' ->
  table_is (mapping ctx) earlier ->
  exists partial,
    records (archive ctx') = records (archive ctx) ++ partial
    /\ (partial = []
        \/ is_file_entry it
           /\ (fe_key it ∉ earlier)
           /\ exists p, partial = [(fst (blob_of (rootArchivePath ctx) it), p)]).
Proof.
  intros Hfail Ht.
  destruct Hfail as [e Hopen|f e Hdir Hopen Hlist|f e ctx' Hfile Hopen Hf];
    try (exists []; split; [by rewrite app_nil_r|by left]).
  assert (f = fe_node it) as -> by (destruct (fe_node it); simpl in Hopen; congruence).
  assert (Hblob : forall d h p,
            File_read_first (fe_node it) = (d, None) ->
            mapping ctx !! hashKey_of d = None ->
            tar_FileInfoHeader (fe_info it) "" = inr h ->
            records (archive ctx
                     ++ [WHeader (set_Name h (backing_path (rootArchivePath ctx) (hashKey_of d)));
                         WBody p])
            = records (archive ctx) ++ [(fst (blob_of (rootArchivePath ctx) it), p)]
            /\ (fe_key it ∉ earlier)).
  { intros d h p Hr Hm Hh. apply read_first_eof in Hr as [Hc _].
    rewrite records_app_header. simpl. rewrite app_nil_r.
    unfold blob_of, fe_key, header_of. rewrite Hh, Hc. simpl. split; [done|].
    rewrite (Ht _), Hm. by intros [? ?]. }
  destruct Hf as [| | | |d h k e ? Hr Hm ? Hh|d h e ? Hr Hm ? Hh
                 |d h e ? ? ? Hr Hm ? Hh ? ? Hre|];
    try (exists []; split; [by rewrite app_nil_r|by left]).
  - destruct (Hblob d h (take k (fst (File_read_again (fe_node it)))) Hr Hm Hh) as [Hrec Hk].
    eexists. split; [exact Hrec|]. right. eauto.
  - destruct (Hblob d h (fst (File_read_again (fe_node it))) Hr Hm Hh) as [Hrec Hk].
    eexists. split; [exact Hrec|]. right. eauto.
  - destruct (Hblob d h (fst (File_read_again (fe_node it))) Hr Hm Hh) as [Hrec Hk].
    eexists. split; [exact Hrec|]. right. eauto.
Qed.

(** Whatever the outcome of a walk from an empty table: the records are
    those of the file entries handled to the end, then at most the stored
    blob, whole or cut short, of the entry at which the walk failed. *)
Lemma walk_any_outcome root archivePath dir isRoot r ctx' :
  addDir archivePath dir isRoot (mkCtx root [] ∅) = (r, ctx') ->
  exists done rest partial,
    file_entries archivePath dir isRoot = done ++ rest
    /\ Forall storable done
    /\ records (archive ctx') = walk_records root [] done ++ partial
    /\ (r = Ok tt -> rest = [] /\ partial = [])
    /\ (partial = []
        \/ exists e later p,
             rest = e :: later
             /\ partial = [(fst (blob_of root e), p)]
             /\ fe_key e ∉ fe_key <$> done).
Proof.
  destruct r as [[]|e]; intros H.
  { apply walk_from_fresh in H as (Hs & Hrec & _).
    exists (file_entries archivePath dir isRoot), [], [].
    rewrite !app_nil_r. by repeat split; [..|left]. }
  rewrite walk_flat in H.
  apply bind_Fail_inv in H as [H|(entries & c1 & Hl & H)].
  { apply lift_Fail_inv in H as [_ ->].
    exists [], (file_entries archivePath dir isRoot), [].
    by repeat split; [..|left]. }
  apply lift_Ok_inv in Hl as [_ ->].
  apply each_Fail in H as (pre & it & post & ctx1 & Hsplit & Hpre & Hfail).
  apply each_Ok in Hpre as [Hs ->]. apply enter_Fail in Hfail.
  set (done := filter is_file_entry pre) in *.
  pose proof (replay_table done (mkCtx root [] ∅) [] table_is_empty) as Ht.
  rewrite app_nil_r in Ht.
  destruct (entry_failure_records _ _ _ _ _ Hfail Ht) as (partial & Hrec & Hpartial).
  rewrite (replay_records done (mkCtx root [] ∅) [] table_is_empty) in Hrec.
  rewrite replay_root in Hpartial. simpl in Hrec, Hpartial.
  exists done, (filter is_file_entry (it :: post)), partial.
  split; [by rewrite file_entries_dispatched, Hsplit, filter_app|].
  split; [done|]. split; [done|]. split; [done|].
  destruct Hpartial as [->|(Hfile & Hk & p & ->)]; [by left|].
  right. exists it, (filter is_file_entry post), p.
  rewrite filter_cons_True by done. split; [done|]. split; [done|].
  by rewrite <- elem_of_reverse.
Qed.

End AnyOutcome.

(** ** Filters *)

Section Filters.
Context {A B : Type}.

Lemma filter_fmap_comm (f : A -> B) (P : B -> Prop) `{!forall y, Decision (P y)}
    (l : list A) :
  filter P (f <$> l) = f <$> filter (fun x => P (f x)) l.
Proof.
  induction l as [|x l IH]; [done|].
  rewrite fmap_cons. destruct (decide (P (f x))) as [Hp|Hp].
  - rewrite !filter_cons_True by done. by rewrite fmap_cons, IH.
  - by rewrite !filter_cons_False by done.
Qed.

Lemma filter_iff_in (P Q : A -> Prop) `{!forall x, Decision (P x)}
    `{!forall x, Decision (Q x)} (l : list A) :
  (forall x, x ∈ l -> P x <-> Q x) -> filter P l = filter Q l.
Proof.
  induction l as [|x l IH]; intros Hpq; [done|].
  assert (Hl : filter P l = filter Q l).
  { apply IH. intros y Hy. apply Hpq. by right. }
  destruct (decide (P x)) as [Hp|Hp].
  - rewrite !filter_cons_True; [by rewrite Hl|by apply (Hpq x); [left|]|done].
  - rewrite !filter_cons_False; [done| |done].
    intros Hq. apply Hp. apply (Hpq x); [by left|done].
Qed.

Lemma filter_at_most_one (key : A -> B) (P : A -> Prop) `{!forall x, Decision (P x)}
    (c : B) (l : list A) :
  NoDup (key <$> l) -> (forall x, P x -> key x = c) -> (length (filter P l) <= 1)%nat.
Proof.
  intros Hnd Hc. induction l as [|x l IH]; [simpl; lia|].
  rewrite fmap_cons in Hnd. apply NoDup_cons in Hnd as [Hx Hnd].
  destruct (decide (P x)) as [Hp|Hp].
  - rewrite filter_cons_True by done. simpl.
    replace (filter P l) with (@nil A); [simpl; lia|].
    symmetry. apply elem_of_nil_inv. intros y [Hy Hin]%list_elem_of_filter.
    apply Hx. rewrite (Hc x Hp), <- (Hc y Hy). by apply list_elem_of_fmap_2.
  - rewrite filter_cons_False by done. by apply IH.
Qed.

End Filters.

(** ** The steps of the command *)

Section Command.
Context `{Ext : Extern} (host : Host) (inv : Invocation).

Lemma main_outcome :
  length (flag_Args inv) = 1%nat ->
  (exists ctx', run_succeeds host inv ctx' /\ main host inv = mkExit 0 [] (archive ctx'))
  \/ (exists err log, run_fails host inv err /\ main host inv = mkExit (-1) [error_line err] log).
Proof.
  intros Hn. apply Nat.eqb_eq in Hn. unfold main, run_succeeds, run_fails.
  rewrite Hn. simpl. fold (the_argument inv).
  destruct (filepath_Abs host (the_argument inv)) as [err|root] eqn:Habs.
  { right. exists err, []. by split; [left|]. }
  destruct (os_OpenFile (node_at host root)) as [err|f] eqn:Hopen.
  { right. exists err, []. split; [|done]. right. exists root. by split; [|left]. }
  fold (walk_of host root f).
  destruct (walk_of host root f) as [[[]|err] ctx1] eqn:Hwalk.
  2:{ right. exists err, (archive ctx1). split; [|done]. right. exists root.
      split; [done|]. right. exists f. split; [done|]. left. by exists ctx1. }
  destruct (archive_Close_fault host (archive ctx1)) as [err|] eqn:Hclose.
  { right. exists err, (archive ctx1). split; [|done]. right. exists root.
    split; [done|]. right. exists f. split; [done|]. right. exists ctx1.
    split; [done|]. by left. }
  destruct (output_Close_fault host _ _) as [err|] eqn:Hout.
  { right. exists err, (archive ctx1). split; [|done]. right. exists root.
    split; [done|]. right. exists f. split; [done|]. right. exists ctx1.
    split; [done|]. by right. }
  left. exists ctx1. split; [|done]. by exists root, f.
Qed.




End Command.

(** * The claims *)

(** ** The dedup invariant *)

(** C1. Walk a tree from an empty table.  Whatever the outcome, the records
    of the archive are, entry by entry for the file entries handled to the
    end, zero or one stored blob followed by one link, and after them at most
    the stored blob of the entry at which the walk failed, under a key not
    met before: no key ever has two stored blobs, no entry two links.  When
    the walk completes, every file entry was handled to the end: the stored
    blobs are those of the entries that are the first with their hash key
    (one for every key met, none twice), the links are one per file entry at
    its logical path; so [N >= 1] files with identical bytes, in whatever
    order the walk meets them, give one stored blob and [N] links. *)
Theorem dedup_one_blob_per_hash `{Ext : Extern}
    (root archivePath : string) (dir : fsnode) (isRoot : bool)
    (r : result unit) (ctx' : creationContext) :
  headers_never_link ->
  addDir archivePath dir isRoot (mkCtx root [] ∅) = (r, ctx') ->
  let es := file_entries archivePath dir isRoot in
  let log := archive ctx' in
  (exists done rest partial,
      es = done ++ rest
      /\ Forall storable done
      /\ records log = walk_records root [] done ++ partial
      /\ stored_blobs log = (blob_of root <$> first_seen [] done) ++ partial
      /\ link_records log = link_of root <$> done
      /\ NoDup (fe_key <$> first_seen [] done)
      /\ (partial = []
          \/ exists e later p,
               rest = e :: later
               /\ partial = [(fst (blob_of root e), p)]
               /\ fe_key e ∉ fe_key <$> done))
  /\ (r = Ok tt ->
      Forall storable es
      /\ (exists chunks,
          records log = concat chunks
          /\ Forall2 (fun e c => c = [link_of root e] \/ c = [blob_of root e; link_of root e])
                     es chunks)
      /\ records log = walk_records root [] es
      /\ stored_blobs log = blob_of root <$> first_seen [] es
      /\ NoDup (fe_key <$> first_seen [] es)
      /\ (forall k, k ∈ fe_key <$> first_seen [] es <-> k ∈ fe_key <$> es)
      /\ (forall es1 e es2, es = es1 ++ e :: es2 -> fe_key e ∉ fe_key <$> es1 ->
            exists later, first_seen [] es = first_seen [] es1 ++ e :: later)
      /\ link_records log = link_of root <$> es
      /\ (forall N data, length es = N -> (1 <= N)%nat ->
            Forall (fun e => content_of (fe_node e) = data) es ->
            length (stored_blobs log) = 1%nat /\ length (link_records log) = N)).
Proof.
  intros Hnl Hrun es log. split.
  { destruct (walk_any_outcome _ _ _ _ _ _ Hrun)
      as (done & rest & partial & Hes & Hs & Hrec & _ & Hpartial).
    exists done, rest, partial. fold log in Hrec.
    split; [done|]. split; [done|]. split; [done|].
    assert (Hkeep : filter (fun r => ~ is_link_record r) partial = partial
                    /\ filter is_link_record partial = []).
    { destruct Hpartial as [->|(e & later & p & _ & -> & _)]; [done|].
      assert (Hn : ~ is_link_record ((blob_of root e).1, p))
        by (unfold is_link_record; simpl; by apply header_of_not_link).
      by rewrite filter_cons_True, filter_cons_False by (done || by intros ?). }
    destruct Hkeep as [Hkeep Hdrop].
    unfold stored_blobs, link_records. rewrite Hrec, !filter_app, Hkeep, Hdrop, app_nil_r.
    rewrite walk_records_blobs, walk_records_links by done.
    split; [done|]. split; [done|]. split; [apply first_seen_NoDup|done]. }
  intros ->.
  destruct (walk_from_fresh _ _ _ _ _ _ Hrun) as (Hs & Hrec & _).
  fold es in Hs, Hrec. fold log in Hrec.
  assert (Hblobs : stored_blobs log = blob_of root <$> first_seen [] es).
  { unfold stored_blobs. rewrite Hrec. by apply walk_records_blobs. }
  assert (Hlinks : link_records log = link_of root <$> es).
  { unfold link_records. rewrite Hrec. by apply walk_records_links. }
  split; [done|].
  split; [rewrite Hrec; apply walk_records_chunks|].
  split; [done|]. split; [done|].
  split; [apply first_seen_NoDup|].
  split.
  { intros k. rewrite first_seen_keys. split; [by intros [? _]|].
    intros Hk. split; [done|]. by inversion 1. }
  split.
  { intros es1 e es2 Hsplit Hfirst. rewrite Hsplit, first_seen_app. simpl.
    rewrite app_nil_r, decide_False by by rewrite elem_of_reverse.
    eauto. }
  split; [done|].
  intros N data HN Hpos Hsame. rewrite Hblobs, Hlinks, !length_fmap. split; [|done].
  destruct es as [|e es0]; [simpl in HN; lia|]. simpl.
  apply Forall_cons in Hsame as [He Hes0].
  destruct (decide (fe_key e ∈ [])) as [Hin|_]; [by inversion Hin|]. simpl.
  rewrite first_seen_all_earlier; [done|].
  eapply Forall_impl; [exact Hes0|]. intros e' He'. simpl in He'.
  apply list_elem_of_singleton. unfold fe_key. by rewrite He, He'.
Qed.

(** The sample tree of the specification: two stored blobs, three links. *)
Lemma dedup_one_blob_per_hash_witness :
  let ctx' := snd (addDir (Ext := Demo.sound) "root" Demo.tree true (Demo.fresh "root")) in
  stored_blobs (archive ctx')
  = blob_of (Ext := Demo.sound) "root"
      <$> first_seen (Ext := Demo.sound) []
            (file_entries (Ext := Demo.sound) "root" Demo.tree true).
Proof.
  intros ctx'.
  refine (proj1 (proj2 (proj2 (proj2 (proj2
    (dedup_one_blob_per_hash (Ext := Demo.sound) "root" "root" Demo.tree true (Ok tt) ctx'
       (demo_never_link _ _) _) eq_refl))))).
  vm_compute. reflexivity.
Defined.

(** ** Hash keys *)

(** C2. The hash key of a file entry is the encoded digest of its bytes and
    of nothing else, and the stored blob lies at
    [rootArchivePath/.backing_store/hashKey].  So two completed runs over
    trees that hold the same file contents (names, paths, metadata and order
    may differ) compute the same hash keys, as many times each, and end with
    tables holding the same keys. *)
Theorem hash_key_of_content_only `{Ext : Extern}
    (root1 root2 archivePath1 archivePath2 : string) (dir1 dir2 : fsnode)
    (isRoot1 isRoot2 : bool) (ctx1 ctx2 : creationContext) :
  headers_never_link ->
  addDir archivePath1 dir1 isRoot1 (mkCtx root1 [] ∅) = (Ok tt, ctx1) ->
  addDir archivePath2 dir2 isRoot2 (mkCtx root2 [] ∅) = (Ok tt, ctx2) ->
  let es1 := file_entries archivePath1 dir1 isRoot1 in
  let es2 := file_entries archivePath2 dir2 isRoot2 in
  let key_of (e : file_entry) :=
    base64_URLEncoding_EncodeToString (sha512_Sum (content_of (fe_node e))) in
  (fun e => content_of (fe_node e)) <$> es1 ≡ₚ (fun e => content_of (fe_node e)) <$> es2 ->
  (fun r => Name (fst r)) <$> stored_blobs (archive ctx1)
    = (fun e => path_Join [root1; ".backing_store"; key_of e]) <$> first_seen [] es1
  /\ (fun r => Name (fst r)) <$> stored_blobs (archive ctx2)
    = (fun e => path_Join [root2; ".backing_store"; key_of e]) <$> first_seen [] es2
  /\ (fun r => Linkname (fst r)) <$> link_records (archive ctx1)
    = (fun e => path_Join [root1; ".backing_store"; key_of e]) <$> es1
  /\ (fun r => Linkname (fst r)) <$> link_records (archive ctx2)
    = (fun e => path_Join [root2; ".backing_store"; key_of e]) <$> es2
  /\ key_of <$> es1 ≡ₚ key_of <$> es2
  /\ (forall k, is_Some (mapping ctx1 !! k) <-> is_Some (mapping ctx2 !! k)).
Proof.
  intros Hnl Hrun1 Hrun2 es1 es2 key_of Hperm.
  destruct (walk_from_fresh _ _ _ _ _ _ Hrun1) as (Hs1 & Hrec1 & Ht1).
  destruct (walk_from_fresh _ _ _ _ _ _ Hrun2) as (Hs2 & Hrec2 & Ht2).
  fold es1 in Hs1, Hrec1, Ht1. fold es2 in Hs2, Hrec2, Ht2.
  assert (Hkeys : fe_key <$> es1 ≡ₚ fe_key <$> es2).
  { rewrite !fe_key_fmap. by apply fmap_Permutation. }
  unfold stored_blobs, link_records. rewrite Hrec1, Hrec2.
  rewrite !walk_records_blobs, !walk_records_links by done.
  rewrite <- !list_fmap_compose.
  do 4 (split; [done|]). split; [exact Hkeys|].
  intros k. rewrite <- (Ht1 k), <- (Ht2 k), !elem_of_reverse.
  by rewrite Hkeys.
Qed.

Lemma hash_key_of_content_only_witness :
  let key_of (e : file_entry) :=
    base64_URLEncoding_EncodeToString (Extern := Demo.sound)
      (sha512_Sum (Extern := Demo.sound) (content_of (fe_node e))) in
  key_of <$> file_entries (Ext := Demo.sound) "root" Demo.tree true
  ≡ₚ key_of <$> file_entries (Ext := Demo.sound) "copy" Demo.shuffled true.
Proof.
  intros key_of.
  refine (proj1 (proj2 (proj2 (proj2 (proj2
    (hash_key_of_content_only (Ext := Demo.sound) "root" "copy" "root" "copy"
       Demo.tree Demo.shuffled true true
       (snd (addDir (Ext := Demo.sound) "root" Demo.tree true (Demo.fresh "root")))
       (snd (addDir (Ext := Demo.sound) "copy" Demo.shuffled true (Demo.fresh "copy")))
       (demo_never_link _ _) _ _ _)))))).
  - vm_compute. reflexivity.
  - vm_compute. reflexivity.
  - vm_compute.
    exact (Permutation_app_comm [list_byte_of_string "hi"; list_byte_of_string "hi"]
                                [list_byte_of_string "bye"]).
Defined.

(** ** The entry-kind test *)

(** C3. [addEntry] takes the directory branch exactly when the mode has the
    directory bit and not the symbolic-link bit; it then returns what
    [addDir] on the opened entry returns and does nothing of its own.  Every
    other entry is handled as a file, and so is a symbolic link that leads
    to a directory: it is read, not walked. *)
Theorem directory_needs_dir_bit_without_symlink_bit `{Ext : Extern}
    (archivePath : string) (fi : FileInfo) (n : fsnode) (ctx : creationContext) :
  let as_dir :=
    mode_has (fi_Mode fi) os_ModeDir && negb (mode_has (fi_Mode fi) os_ModeSymlink) in
  is_directory_entry fi = as_dir
  /\ addEntry archivePath fi n ctx
     = match os_OpenFile n with
       | inl err => (Fail err, ctx)
       | inr f =>
           if as_dir then addDir archivePath f false ctx
           else addFile archivePath fi f ctx
       end
  /\ forall listing,
       mode_has (fi_Mode fi) os_ModeSymlink = true ->
       addEntry archivePath fi (Directory listing) ctx = (Fail EISDIR, ctx).
Proof.
  intros as_dir. pose proof (is_directory_entry_bits fi) as Hbits. fold as_dir in Hbits.
  split; [done|]. split.
  - rewrite addEntry_eq, <- Hbits. destruct n; simpl; try reflexivity;
      by destruct (is_directory_entry fi).
  - intros listing Hlink. rewrite addEntry_eq, Hbits. unfold as_dir.
    rewrite Hlink, andb_false_r. reflexivity.
Qed.

(** A link to a directory: [ModeSymlink] set, the path opens as a directory. *)
Lemma directory_needs_dir_bit_without_symlink_bit_witness :
  addEntry (Ext := Demo.sound) "root/l" (Demo.symlink "l")
           (Directory (inr [ (Demo.reg "f" 1, Demo.file "x") ])) (Demo.fresh "root")
  = (Fail EISDIR, Demo.fresh "root").
Proof.
  refine (proj2 (proj2 (directory_needs_dir_bit_without_symlink_bit
                          (Ext := Demo.sound) "root/l" (Demo.symlink "l")
                          (Directory (inr [])) (Demo.fresh "root"))) _ _).
  vm_compute. reflexivity.
Defined.

(** ** The link header *)

(** C4. A file entry handled without error ends with the write of its link
    header, whether or not a stored blob was written before it: the header
    built from the file's metadata with the logical path as name, the
    hard-link type, the stored blob's path as link target and size zero. *)
Theorem link_header_written_last `{Ext : Extern}
    (archivePath : string) (fi : FileInfo) (n : fsnode) (ctx ctx' : creationContext) :
  is_directory_entry fi = false ->
  addEntry archivePath fi n ctx = (Ok tt, ctx') ->
  exists h stored,
    let hashKey := base64_URLEncoding_EncodeToString (sha512_Sum (content_of n)) in
    let target := path_Join [rootArchivePath ctx; ".backing_store"; hashKey] in
    let link := mkHeader tar_TypeLink archivePath target 0 (Mode h) (ModTime h) in
    tar_FileInfoHeader fi "" = inr h
    /\ archive ctx' = archive ctx ++ stored ++ [WHeader link]
    /\ (stored = [] /\ is_Some (mapping ctx !! hashKey)
        \/ stored = [WHeader (set_Name h target); WBody (content_of n)]
           /\ mapping ctx !! hashKey = None).
Proof.
  intros Hfile H. apply addEntry_Ok_open in H. rewrite Hfile in H.
  apply addFile_Ok in H as [[_ Hh] ->]. simpl in Hh.
  exists (header_of fi). unfold store_file, fe_key, hashKey_of, backing_path. simpl.
  destruct (mapping ctx !! _) as [b|] eqn:Hm.
  - exists []. split; [done|]. split; [done|]. left. eauto.
  - eexists. split; [done|]. split; [|by right]. done.
Qed.

Lemma link_header_written_last_witness :
  exists h stored,
    Demo.FileInfoHeader (Demo.reg "a.txt" 2) "" = inr h
    /\ archive (snd (addEntry (Ext := Demo.sound) "root/a.txt" (Demo.reg "a.txt" 2)
                              (Demo.file "hi") (Demo.fresh "root")))
       = stored ++ [WHeader (mkHeader tar_TypeLink "root/a.txt" "root/.backing_store/#hi" 0
                                      (Mode h) (ModTime h))].
Proof.
  destruct (link_header_written_last (Ext := Demo.sound) "root/a.txt" (Demo.reg "a.txt" 2)
              (Demo.file "hi") (Demo.fresh "root")
              (snd (addEntry (Ext := Demo.sound) "root/a.txt" (Demo.reg "a.txt" 2)
                             (Demo.file "hi") (Demo.fresh "root")))
              eq_refl eq_refl) as (h & stored & Hh & Hlog & _).
  exists h, stored. split; [exact Hh|exact Hlog].
Defined.

(** ** The root-level exclusion *)

(** C5. At the root the walk leaves out the entries named [.backing_store]
    and hands every other entry to [addEntry]; below the root it hands over
    every entry, also one named [.backing_store]. *)
Theorem root_skips_backing_store `{Ext : Extern}
    (archivePath : string) (entries : list (FileInfo * fsnode)) (isRoot : bool) :
  addDir archivePath (Directory (inr entries)) isRoot
  = dispatch_all archivePath
      (if isRoot then filter not_backing_store entries else entries).
Proof.
  rewrite addDir_listing.
  induction entries as [|[fi n] rest IH]; [by destruct isRoot|].
  simpl. destruct isRoot; simpl in *.
  - destruct (String.eqb_spec (fi_Name fi) backing_store) as [Heq|Hne].
    + rewrite filter_cons_False; [done|]. intros Hnot. by apply Hnot.
    + rewrite filter_cons_True by done. simpl. by rewrite IH.
  - by rewrite IH.
Qed.

(** ** Directories leave no record *)

(** C6, as the code has it.  The archive holds the records of file entries
    and no others: every record of a completed run is the stored blob or the
    link of an entry that took the file branch.  A directory gets no record
    of its own, so walking an empty directory leaves the archive as it was,
    and where no file entry's header is a directory header the archive has
    no directory record at all. *)
Theorem only_file_entries_leave_records `{Ext : Extern}
    (root archivePath : string) (dir : fsnode) (isRoot : bool) (ctx' : creationContext) :
  addDir archivePath dir isRoot (mkCtx root [] ∅) = (Ok tt, ctx') ->
  let es := file_entries archivePath dir isRoot in
  (forall r, r ∈ records (archive ctx') ->
     exists e, e ∈ es /\ is_directory_entry (fe_info e) = false
               /\ (r = blob_of root e \/ r = link_of root e))
  /\ (es = [] -> archive ctx' = [])
  /\ (forall ctx, addDir archivePath (Directory (inr [])) isRoot ctx = (Ok tt, ctx))
  /\ (Forall (fun e => Typeflag (header_of (fe_info e)) <> tar_TypeDir) es ->
      filter is_dir_record (records (archive ctx')) = []).
Proof.
  intros Hrun es.
  destruct (walk_from_fresh _ _ _ _ _ _ Hrun) as (Hs & Hrec & _).
  fold es in Hs, Hrec.
  assert (Hall : forall r, r ∈ records (archive ctx') ->
     exists e, e ∈ es /\ is_directory_entry (fe_info e) = false
               /\ (r = blob_of root e \/ r = link_of root e)).
  { intros r Hr. rewrite Hrec in Hr.
    apply walk_records_elem in Hr as (e & He & Hr).
    exists e. split; [done|]. split; [|done].
    by eapply file_entries_not_directory. }
  split; [done|]. split.
  { intros Hnil. apply walk_Ok in Hrun as [_ ->]. fold es. by rewrite Hnil. }
  split; [done|].
  intros Hnd. apply elem_of_nil_inv. intros r [Hdir Hr]%list_elem_of_filter.
  destruct (Hall r Hr) as (e & He & _ & [->| ->]).
  - rewrite Forall_forall in Hnd. by apply (Hnd e He).
  - discriminate Hdir.
Qed.

Lemma only_file_entries_leave_records_witness :
  let ctx' := snd (addDir (Ext := Demo.sound) "root" Demo.tree true (Demo.fresh "root")) in
  filter is_dir_record (records (archive ctx')) = [].
Proof.
  intros ctx'.
  refine (proj2 (proj2 (proj2
    (only_file_entries_leave_records (Ext := Demo.sound) "root" "root" Demo.tree true ctx' _))) _).
  - vm_compute. reflexivity.
  - let l := eval vm_compute in (file_entries (Ext := Demo.sound) "root" Demo.tree true) in
    change (Forall (fun e => Typeflag (header_of (Ext := Demo.sound) (fe_info e)) <> tar_TypeDir) l).
    repeat constructor; vm_compute; discriminate.
Defined.

(** The claim as C6 states it fails: the sample tree has a subdirectory, an
    empty directory is a directory, and neither run writes a directory
    record. *)
Lemma directory_record_counterexample :
  let run := addDir (Ext := Demo.sound) "root" Demo.tree true (Demo.fresh "root") in
  let empty := addDir (Ext := Demo.sound) "root" (Directory (inr [])) true (Demo.fresh "root") in
  fst run = Ok tt
  /\ ~ (exists r, r ∈ records (archive (snd run)) /\ is_dir_record r)
  /\ fst empty = Ok tt
  /\ records (archive (snd empty)) = [].
Proof.
  intros run empty. split; [by vm_compute|]. split; [|by vm_compute].
  intros (r & Hr & Hdir).
  assert (Hnone : filter is_dir_record (records (archive (snd run))) = []) by by vm_compute.
  by apply (filter_nil_not_elem_of _ _ r Hnone Hdir).
Qed.

(** ** The first error ends the walk *)

(** C7. A walk returns an error exactly when listing its directory fails, or
    when, after the entries before it were handled without error, one call
    for some entry at some depth (opening it, listing it, reading it,
    rewinding, building or writing a header, writing the content) fails.  It
    returns that very error, and its context is the one of that moment: no
    later entry is touched, nothing more is written, and what had been
    written stays in the archive. *)
Theorem first_error_aborts_walk `{Ext : Extern}
    (archivePath : string) (dir : fsnode) (isRoot : bool)
    (ctx : creationContext) (e : error) (ctx' : creationContext) :
  (addDir archivePath dir isRoot ctx = (Fail e, ctx') <->
     (File_Readdir dir = inl e /\ ctx' = ctx)
     \/ (exists entries pre it post ctx1,
           File_Readdir dir = inr entries
           /\ dispatched archivePath dir isRoot = pre ++ it :: post
           /\ each pre ctx = (Ok tt, ctx1)
           /\ entry_failure it ctx1 e ctx'
           /\ (exists before, archive ctx1 = archive ctx ++ before)
           /\ (exists partial, archive ctx' = archive ctx1 ++ partial)))
  /\ (forall r ctx'', addDir archivePath dir isRoot ctx = (r, ctx'') ->
        exists written, archive ctx'' = archive ctx ++ written).
Proof.
  split; [|intros r ctx''; apply addDir_grows].
  rewrite walk_flat. split.
  - intros H. apply bind_Fail_inv in H as [H|(entries & c1 & Hl & H)].
    { apply lift_Fail_inv in H as [H ->]. by left. }
    apply lift_Ok_inv in Hl as [Hl ->]. right.
    apply each_Fail in H as (pre & it & post & ctx1 & Hsplit & Hpre & Hfail).
    exists entries, pre, it, post, ctx1.
    split; [done|]. split; [done|]. split; [done|].
    split; [by apply enter_Fail|].
    split; [by eapply each_grows|by eapply enter_grows].
  - intros [[Hl ->]|(entries & pre & it & post & ctx1 & Hl & Hsplit & Hpre & Hfail & _)].
    + by rewrite Hl.
    + rewrite Hl. unfold bind, lift, ret. apply each_Fail.
      exists pre, it, post, ctx1. split; [done|]. split; [done|]. by apply enter_Fail.
Qed.

(** An unreadable file in the middle of the tree: the walk returns its error;
    [a.txt] is in the archive, [never] and [d.txt] were not looked at. *)
Lemma first_error_aborts_walk_witness :
  addDir (Ext := Demo.sound) "root" Demo.broken true (Demo.fresh "root")
  = (Fail Demo.denied,
     snd (addEntry (Ext := Demo.sound) "root/a.txt" (Demo.reg "a.txt" 2) (Demo.file "hi")
                   (Demo.fresh "root"))).
Proof.
  apply (proj2 (proj1 (first_error_aborts_walk (Ext := Demo.sound) _ _ _ _ _ _))).
  right.
  exists [ (Demo.reg "a.txt" 2, Demo.file "hi");
           (Demo.subdir "b", Directory (inr [ (Demo.reg "locked" 5, Unopenable Demo.denied);
                                              (Demo.reg "never" 1, Demo.file "x") ]));
           (Demo.reg "d.txt" 3, Demo.file "bye") ],
         [ FileEntry "root/a.txt" (Demo.reg "a.txt" 2) (Demo.file "hi");
           FileEntry "root/b" (Demo.subdir "b")
             (Directory (inr [ (Demo.reg "locked" 5, Unopenable Demo.denied);
                               (Demo.reg "never" 1, Demo.file "x") ])) ],
         (FileEntry "root/b/locked" (Demo.reg "locked" 5) (Unopenable Demo.denied)),
         [ FileEntry "root/b/never" (Demo.reg "never" 1) (Demo.file "x");
           FileEntry "root/d.txt" (Demo.reg "d.txt" 3) (Demo.file "bye") ],
         (snd (addEntry (Ext := Demo.sound) "root/a.txt" (Demo.reg "a.txt" 2) (Demo.file "hi")
                        (Demo.fresh "root"))).
  split; [reflexivity|]. split; [by vm_compute|]. split; [by vm_compute|].
  split; [by apply fail_open|].
  split; eexists; vm_compute; reflexivity.
Defined.

(** ** Exit codes *)



(** ** The table is set after the blob *)

(** C9. When [addEntry] on a file entry returns an error, the table is as it
    was, with one exception: the stored blob's header and all of its content
    were written, the key was stored, and it is the write of the link header
    that failed.  So a failing seek, header construction, header write or
    content write leaves the table unchanged, and on every path, failing or
    not, each key in the table has its complete blob in the archive. *)
Theorem table_set_after_complete_blob `{Ext : Extern}
    (archivePath : string) (fi : FileInfo) (n : fsnode)
    (ctx : creationContext) (e : error) (ctx' : creationContext) :
  is_directory_entry fi = false ->
  addEntry archivePath fi n ctx = (Fail e, ctx') ->
  let hashKey := base64_URLEncoding_EncodeToString (sha512_Sum (content_of n)) in
  let target := path_Join [rootArchivePath ctx; ".backing_store"; hashKey] in
  (mapping ctx' = mapping ctx
   \/ exists h,
        tar_FileInfoHeader fi "" = inr h
        /\ mapping ctx !! hashKey = None
        /\ archive ctx' = archive ctx ++ [WHeader (set_Name h target); WBody (content_of n)]
        /\ mapping ctx' = <[hashKey := true]> (mapping ctx)
        /\ tar_WriteHeader_fault (archive ctx') (link_header h archivePath target) = Some e)
  /\ (table_backed ctx -> table_backed ctx')
  /\ (forall ap dir isRoot c r c',
        addDir ap dir isRoot c = (r, c') -> table_backed c -> table_backed c').
Proof.
  intros Hfile H hashKey target.
  split; [|split; [by eapply addEntry_backed|intros *; apply addDir_backed]].
  apply addEntry_file_Fail in H as [[_ ->]|[_ Hf]]; [by left| |done].
  destruct Hf as [| | | | | |d h e ? ? ? Hr Hm ? Hh ? ? Hre Hl|]; try by left.
  right. exists h. apply read_first_eof in Hr as [Hc Hagain].
  specialize (Hagain Hre). subst stored blob target0.
  rewrite Hagain in *. subst hashKey target. rewrite Hc. by simpl.
Qed.

Lemma table_set_after_complete_blob_witness :
  let full := Demo.ext (fun _ _ => None)
                       (fun _ _ => Some (1%nat, "write /dev/stdout: no space left on device")) in
  let ctx' := snd (addEntry (Ext := full) "root/a.txt" (Demo.reg "a.txt" 2) (Demo.file "hi")
                            (Demo.fresh "root")) in
  mapping ctx' = mapping (Demo.fresh "root")
  \/ exists h,
       tar_FileInfoHeader (Extern := full) (Demo.reg "a.txt" 2) "" = inr h
       /\ mapping (Demo.fresh "root") !! "#hi" = None
       /\ archive ctx' = archive (Demo.fresh "root")
                         ++ [WHeader (set_Name h "root/.backing_store/#hi");
                             WBody (list_byte_of_string "hi")]
       /\ mapping ctx' = <["#hi" := true]> (mapping (Demo.fresh "root"))
       /\ tar_WriteHeader_fault (Extern := full) (archive ctx')
            (link_header h "root/a.txt" "root/.backing_store/#hi")
          = Some "write /dev/stdout: no space left on device".
Proof.
  intros full ctx'.
  refine (proj1 (table_set_after_complete_blob (Ext := full) "root/a.txt"
                   (Demo.reg "a.txt" 2) (Demo.file "hi") (Demo.fresh "root")
                   "write /dev/stdout: no space left on device" ctx' _ _)).
  - vm_compute. reflexivity.
  - vm_compute. reflexivity.
Defined.

(** ** Empty files *)

(** C10. Files without content all get the key of the empty input.  In a
    completed run over a tree with [N >= 1] of them, at most one stored blob
    has an empty body, and each empty file has its link, of size zero, to the
    backing path of that key: [N] such links.  Where no other file of the
    tree is sent to that backing path, exactly one stored blob lies there,
    with no content bytes, and exactly [N] links point to it. *)
Theorem empty_files_share_one_blob `{Ext : Extern}
    (root archivePath : string) (dir : fsnode) (isRoot : bool)
    (ctx' : creationContext) (N : nat) :
  headers_never_link ->
  addDir archivePath dir isRoot (mkCtx root [] ∅) = (Ok tt, ctx') ->
  let es := file_entries archivePath dir isRoot in
  let empties := filter (fun e => content_of (fe_node e) = []) es in
  let key_of (d : list byte) := base64_URLEncoding_EncodeToString (sha512_Sum d) in
  let target := path_Join [root; ".backing_store"; key_of []] in
  length empties = N -> (1 <= N)%nat ->
  Forall (fun e => key_of (content_of (fe_node e)) = key_of []) empties
  /\ (length (filter (fun r => snd r = []) (stored_blobs (archive ctx'))) <= 1)%nat
  /\ link_records (archive ctx') = link_of root <$> es
  /\ Forall (fun r => Linkname (fst r) = target /\ Size (fst r) = 0 /\ snd r = [])
            (link_of root <$> empties)
  /\ length (link_of root <$> empties) = N
  /\ ((forall e, e ∈ es ->
         path_Join [root; ".backing_store"; key_of (content_of (fe_node e))] = target ->
         content_of (fe_node e) = []) ->
      (exists h, filter (fun r => Name (fst r) = target) (stored_blobs (archive ctx'))
                 = [(h, [])])
      /\ filter (fun r => Linkname (fst r) = target) (link_records (archive ctx'))
         = link_of root <$> empties).
Proof.
  intros Hnl Hrun es empties key_of target HN Hpos.
  destruct (walk_from_fresh _ _ _ _ _ _ Hrun) as (Hs & Hrec & _).
  fold es in Hs, Hrec.
  assert (Hblobs : stored_blobs (archive ctx') = blob_of root <$> first_seen [] es).
  { unfold stored_blobs. rewrite Hrec. by apply walk_records_blobs. }
  assert (Hlinks : link_records (archive ctx') = link_of root <$> es).
  { unfold link_records. rewrite Hrec. by apply walk_records_links. }
  assert (Hkey : forall e, content_of (fe_node e) = [] -> fe_key e = key_of []).
  { intros e He. unfold fe_key. by rewrite He. }
  split.
  { apply Forall_forall. intros e [He _]%list_elem_of_filter. by rewrite He. }
  split.
  { rewrite Hblobs, filter_fmap_comm, length_fmap.
    apply (filter_at_most_one fe_key _ (key_of [])); [apply first_seen_NoDup|].
    intros e He. by apply Hkey. }
  split; [done|]. split.
  { apply Forall_forall. intros r (e & -> & [He _]%list_elem_of_filter)%list_elem_of_fmap.
    unfold link_of, backing_path, target. simpl. by rewrite (Hkey e He). }
  split; [by rewrite length_fmap|].
  intros Hnocoll.
  assert (Hsame : forall e, e ∈ es ->
            backing_path root (fe_key e) = target <-> content_of (fe_node e) = []).
  { intros e He. split; [by apply Hnocoll|].
    intros Hc. unfold backing_path, target. by rewrite (Hkey e Hc). }
  split.
  - rewrite Hblobs, filter_fmap_comm.
    rewrite (filter_iff_in _ (fun e => content_of (fe_node e) = [])).
    2:{ intros e [_ He]%first_seen_fresh. by apply Hsame. }
    assert (Hle : (length (filter (fun e => content_of (fe_node e) = [])
                                  (first_seen [] es)) <= 1)%nat).
    { apply (filter_at_most_one fe_key _ (key_of [])); [apply first_seen_NoDup|done]. }
    destruct (filter _ (first_seen [] es)) as [|e0 [|e1 l]] eqn:Hf; simpl in Hle; [|  |lia].
    + exfalso. destruct empties as [|e empties'] eqn:Hemp; [simpl in HN; lia|].
      assert (He : e ∈ filter (fun e => content_of (fe_node e) = []) es)
        by (fold empties; rewrite Hemp; by left).
      apply list_elem_of_filter in He as [Hc He].
      assert (Hk : fe_key e ∈ fe_key <$> first_seen [] es).
      { apply first_seen_keys. split; [by apply list_elem_of_fmap_2|by inversion 1]. }
      apply list_elem_of_fmap in Hk as (e' & Hk & He').
      assert (He'es : e' ∈ es) by by apply first_seen_fresh in He' as [_ ?].
      assert (Hc' : content_of (fe_node e') = []).
      { apply (Hsame e' He'es). rewrite <- Hk. by apply (Hsame e He). }
      assert (Hin : e' ∈ filter (fun e => content_of (fe_node e) = []) (first_seen [] es))
        by by apply list_elem_of_filter.
      rewrite Hf in Hin. by inversion Hin.
    + assert (Hin : e0 ∈ filter (fun e => content_of (fe_node e) = []) (first_seen [] es))
        by (rewrite Hf; by left).
      apply list_elem_of_filter in Hin as [Hc _].
      eexists. simpl. unfold blob_of. by rewrite Hc.
  - rewrite Hlinks, filter_fmap_comm. f_equal.
    apply filter_iff_in. intros e He. by apply Hsame.
Qed.

Lemma empty_files_share_one_blob_witness :
  let ctx' := snd (addDir (Ext := Demo.sound) "root" Demo.hollow true (Demo.fresh "root")) in
  (length (filter (fun r => snd r = []) (stored_blobs (archive ctx'))) <= 1)%nat.
Proof.
  intros ctx'.
  refine (proj1 (proj2
    (empty_files_share_one_blob (Ext := Demo.sound) "root" "root" Demo.hollow true ctx' 3
       (demo_never_link _ _) _ _ _))).
  - vm_compute. reflexivity.
  - vm_compute. reflexivity.
  - lia.
Defined.

(** * Further properties of the code *)

(** ** A walk without faults completes *)

Section Sound.
Context `{Ext : Extern}.




End Sound.



(** ** The archive can be read back *)

Section SelfContained.
Context `{Ext : Extern}.

Lemma has_blob_app rs rs' name : has_blob rs name -> has_blob (rs ++ rs') name.
Proof.
  intros (j & b & Hj & Hb). exists j, b. split; [|done]. by apply lookup_app_l_Some.
Qed.

Lemma links_resolved_snoc_blob rs b :
  links_resolved rs -> ~ is_link_record b -> links_resolved (rs ++ [b]).
Proof.
  intros Hrs Hb i l Hi Hl. apply lookup_snoc_Some in Hi as [[Hlt Hi]|[_ <-]]; [|done].
  destruct (Hrs i l Hi Hl) as (j & b' & Hj & Hb' & Hrest).
  exists j, b'. split; [done|]. split; [by apply lookup_app_l_Some|done].
Qed.

Lemma links_resolved_snoc_link rs l :
  links_resolved rs -> has_blob rs (Linkname (fst l)) -> links_resolved (rs ++ [l]).
Proof.
  intros Hrs (j & b & Hj & Hb & Hname) i l' Hi Hl.
  apply lookup_snoc_Some in Hi as [[Hlt Hi]|[-> <-]].
  - destruct (Hrs i l' Hi Hl) as (j' & b' & Hj' & Hb' & Hrest).
    exists j', b'. split; [done|]. split; [by apply lookup_app_l_Some|done].
  - exists j, b. split; [by eapply lookup_lt_Some|].
    split; [by apply lookup_app_l_Some|done].
Qed.

Lemma walk_records_resolved root es : forall earlier pre,
  headers_never_link ->
  (forall k, k ∈ earlier -> has_blob pre (backing_path root k)) ->
  links_resolved pre ->
  links_resolved (pre ++ walk_records root earlier es).
Proof.
  induction es as [|e es IH]; intros earlier pre Hnl Hearlier Hpre; simpl.
  { by rewrite app_nil_r. }
  assert (Hblob : ~ is_link_record (blob_of root e))
    by (unfold is_link_record; simpl; by apply header_of_not_link).
  set (pre' := pre ++ (if decide (fe_key e ∈ earlier) then [] else [blob_of root e])).
  assert (Hpre' : links_resolved pre').
  { subst pre'. destruct (decide _); [by rewrite app_nil_r|].
    by apply links_resolved_snoc_blob. }
  assert (Hhas : has_blob pre' (backing_path root (fe_key e))).
  { subst pre'. destruct (decide _) as [Hin|Hnin].
    - rewrite app_nil_r. by apply Hearlier.
    - exists (length pre), (blob_of root e).
      split; [by apply list_lookup_middle|done]. }
  rewrite app_assoc. fold pre'.
  rewrite (cons_middle (link_of root e)), app_assoc.
  apply IH; [done| |by apply links_resolved_snoc_link].
  intros k [->|Hk]%elem_of_cons; apply has_blob_app; [done|].
  subst pre'. by apply has_blob_app, Hearlier.
Qed.

Lemma blobs_linked_snoc_link root rs l :
  blobs_linked root rs -> is_link_record l -> blobs_linked root (rs ++ [l]).
Proof.
  intros Hrs Hl i b Hi Hb. apply lookup_snoc_Some in Hi as [[Hlt Hi]|[_ <-]]; [|done].
  destruct (Hrs i b Hi Hb) as (Hname & l' & Hnext & Hrest).
  split; [done|]. exists l'. split; [by apply lookup_app_l_Some|done].
Qed.

Lemma blobs_linked_snoc_pair root rs e :
  blobs_linked root rs -> blobs_linked root (rs ++ [blob_of root e; link_of root e]).
Proof.
  intros Hrs i b Hi Hb. apply lookup_app_Some in Hi as [Hi|[Hge Hi]].
  - destruct (Hrs i b Hi Hb) as (Hname & l' & Hnext & Hrest).
    split; [done|]. exists l'. split; [by apply lookup_app_l_Some|done].
  - destruct (i - length rs)%nat as [|[|k]] eqn:Hk; simpl in Hi; [| |done].
    + injection Hi as <-. split; [done|]. exists (link_of root e).
      split; [|done]. replace (S i) with (length rs + 1)%nat by lia.
      by rewrite lookup_app_r, Nat.add_comm, Nat.add_sub by lia.
    + injection Hi as <-. by destruct Hb.
Qed.

Lemma walk_records_linked root es : forall earlier pre,
  blobs_linked root pre -> blobs_linked root (pre ++ walk_records root earlier es).
Proof.
  induction es as [|e es IH]; intros earlier pre Hpre; simpl.
  { by rewrite app_nil_r. }
  destruct (decide _); simpl.
  - rewrite (cons_middle (link_of root e)), app_assoc. apply IH.
    by apply blobs_linked_snoc_link.
  - change (pre ++ blob_of root e :: link_of root e :: walk_records root (fe_key e :: earlier) es)
      with (pre ++ [blob_of root e; link_of root e] ++ walk_records root (fe_key e :: earlier) es).
    rewrite app_assoc. apply IH. by apply blobs_linked_snoc_pair.
Qed.

End SelfContained.

(** X2. Whatever the outcome of a walk from an empty table, every hard-link
    record in the archive comes after a stored blob whose name is the link's
    target: a reader of the stream never meets a link it cannot resolve. *)
Theorem links_point_back_to_stored_blobs `{Ext : Extern}
    (root archivePath : string) (dir : fsnode) (isRoot : bool)
    (r : result unit) (ctx' : creationContext) :
  headers_never_link ->
  addDir archivePath dir isRoot (mkCtx root [] ∅) = (r, ctx') ->
  links_resolved (records (archive ctx')).
Proof.
  intros Hnl Hrun.
  destruct (walk_any_outcome _ _ _ _ _ _ Hrun)
    as (done & rest & partial & _ & _ & Hrec & _ & Hpartial).
  rewrite Hrec.
  assert (Hdone : links_resolved (walk_records root [] done)).
  { apply (walk_records_resolved root done [] [] Hnl).
    - intros k Hk. by inversion Hk.
    - intros i l Hi. by rewrite lookup_nil in Hi. }
  destruct Hpartial as [->|(e & later & p & _ & -> & _)]; [by rewrite app_nil_r|].
  apply links_resolved_snoc_blob; [done|].
  unfold is_link_record. simpl. by apply header_of_not_link.
Qed.

(** The walk that fails at [locked]: the link of [a.txt], second in the
    archive, has its stored blob before it. *)
Lemma links_point_back_to_stored_blobs_witness :
  let rs := records (archive (snd (addDir (Ext := Demo.sound) "root" Demo.broken true
                                          (Demo.fresh "root")))) in
  exists j b, (j < 1)%nat /\ rs !! j = Some b /\ ~ is_link_record b
              /\ Name (fst b) = "root/.backing_store/#hi".
Proof.
  intros rs.
  refine (links_point_back_to_stored_blobs (Ext := Demo.sound) "root" "root" Demo.broken true
            (Fail Demo.denied)
            (snd (addDir (Ext := Demo.sound) "root" Demo.broken true (Demo.fresh "root")))
            (demo_never_link _ _) _ 1%nat
            (mkHeader tar_TypeLink "root/a.txt" "root/.backing_store/#hi" 0 420 0, []) _ _).
  - vm_compute. reflexivity.
  - vm_compute. reflexivity.
  - vm_compute. reflexivity.
Defined.

(** X3. In the archive of a completed walk from an empty table every stored
    blob lies at the backing path of the hash of its own body, and the record
    right after it is a hard link to it: content addressing holds and no
    stored blob is left without a name in the tree. *)
Theorem stored_blobs_named_by_their_content `{Ext : Extern}
    (root archivePath : string) (dir : fsnode) (isRoot : bool) (ctx' : creationContext) :
  addDir archivePath dir isRoot (mkCtx root [] ∅) = (Ok tt, ctx') ->
  blobs_linked root (records (archive ctx')).
Proof.
  intros Hrun. apply walk_from_fresh in Hrun as (_ & -> & _).
  apply (walk_records_linked root _ [] []).
  intros i b Hi. by rewrite lookup_nil in Hi.
Qed.

(** The first record of the sample archive: the stored blob of ["hi"]. *)
Lemma stored_blobs_named_by_their_content_witness :
  let rs := records (archive (snd (addDir (Ext := Demo.sound) "root" Demo.tree true
                                          (Demo.fresh "root")))) in
  let b := (mkHeader Demo.tar_TypeReg "root/.backing_store/#hi" "" 2 420 0,
            list_byte_of_string "hi") in
  Name (fst b) = backing_path (Ext := Demo.sound) "root"
                   (hashKey_of (Ext := Demo.sound) (snd b))
  /\ exists l, rs !! 1%nat = Some l /\ is_link_record l
               /\ Linkname (fst l) = Name (fst b).
Proof.
  intros rs b.
  refine (stored_blobs_named_by_their_content (Ext := Demo.sound) "root" "root" Demo.tree true
            (snd (addDir (Ext := Demo.sound) "root" Demo.tree true (Demo.fresh "root")))
            _ 0%nat b _ _).
  - vm_compute. reflexivity.
  - vm_compute. reflexivity.
  - vm_compute. discriminate.
Defined.

(** ** Content that is already stored *)

(** X4. A file entry whose hash key is in the table is only linked: once its
    bytes are hashed, [addEntry] builds the link header and writes it, and
    that is all.  The file is not rewound or read again and no body is
    written (neither the file's later faults nor the writer's body faults
    matter), and the table stays as it is whether the call succeeds or
    fails. *)
Theorem known_content_is_only_linked `{Ext : Extern}
    (archivePath : string) (fi : FileInfo) (data : list byte) (flt : FileFaults)
    (ctx : creationContext) (stored : bool) :
  is_directory_entry fi = false ->
  hash_read_fault flt = None ->
  mapping ctx !! hashKey_of data = Some stored ->
  addEntry archivePath fi (RegularFile data flt) ctx
  = match tar_FileInfoHeader fi "" with
    | inl err => (Fail err, ctx)
    | inr h =>
        let link :=
          link_header h archivePath (backing_path (rootArchivePath ctx) (hashKey_of data)) in
        match tar_WriteHeader_fault (archive ctx) link with
        | Some err => (Fail err, ctx)
        | None => (Ok tt, set_archive ctx (archive ctx ++ [WHeader link]))
        end
    end.
Proof.
  intros Hfile Hread Hm. rewrite addEntry_eq, Hfile.
  unfold addFile, bind, lift, check, io_Copy_hash, get_ctx, archive_WriteHeader, ret, fail.
  cbn [os_OpenFile File_read_first]. rewrite Hread.
  cbv beta iota zeta delta [read_with fst snd].
  change (base64_URLEncoding_EncodeToString (sha512_Sum data)) with (hashKey_of data).
  rewrite Hm. unfold backing_path.
  by destruct (tar_FileInfoHeader fi "").
Qed.

Lemma known_content_is_only_linked_witness :
  let full := Demo.ext (fun _ _ => None)
                       (fun _ _ => Some (0%nat, "write /dev/stdout: no space left on device")) in
  let seen := mkCtx "root" [] {[ "#hi" := true ]} in
  let stuck := mkFaults None (Some "seek: illegal seek") (Some (0%nat, "read: input/output error")) in
  addEntry (Ext := full) "root/again.txt" (Demo.reg "again.txt" 2)
           (RegularFile (list_byte_of_string "hi") stuck) seen
  = (Ok tt,
     set_archive seen
       [WHeader (mkHeader tar_TypeLink "root/again.txt" "root/.backing_store/#hi" 0 420 0)]).
Proof.
  intros full seen stuck.
  rewrite (known_content_is_only_linked (Ext := full) "root/again.txt"
             (Demo.reg "again.txt" 2) (list_byte_of_string "hi") stuck seen true);
    [reflexivity|reflexivity|reflexivity|].
  vm_compute. reflexivity.
Defined.

Section Known.
Context `{Ext : Extern}.

Lemma replay_known es : forall ctx,
  Forall (fun e => is_Some (mapping ctx !! fe_key e)) es ->
  foldl store_file ctx es
  = set_archive ctx
      (archive ctx ++ ((fun e => WHeader (fst (link_of (rootArchivePath ctx) e))) <$> es)).
Proof.
  induction es as [|e es IH]; intros ctx Hall; simpl.
  { rewrite app_nil_r. by destruct ctx. }
  apply Forall_cons in Hall as [[b He] Hes].
  assert (Hstep : store_file ctx e
                  = set_archive ctx (archive ctx
                                     ++ [WHeader (fst (link_of (rootArchivePath ctx) e))])).
  { unfold store_file. by rewrite He. }
  rewrite Hstep, IH by done. unfold set_archive. simpl.
  by rewrite <- app_assoc.
Qed.

End Known.

(** X5. A walk that completes over entries whose hash keys are all in the
    table already stores nothing: it appends one link per file entry, in
    order, and leaves the table as it was.  So walking the same tree a
    second time with the context of a first completed walk adds its links and
    no stored blob. *)
Theorem known_tree_is_only_linked `{Ext : Extern}
    (archivePath : string) (dir : fsnode) (isRoot : bool) (ctx ctx' : creationContext) :
  addDir archivePath dir isRoot ctx = (Ok tt, ctx') ->
  let es := file_entries archivePath dir isRoot in
  Forall (fun e => is_Some (mapping ctx !! fe_key e)) es ->
  mapping ctx' = mapping ctx
  /\ archive ctx'
     = archive ctx ++ ((fun e => WHeader (fst (link_of (rootArchivePath ctx) e))) <$> es)
  /\ records (archive ctx')
     = records (archive ctx) ++ (link_of (rootArchivePath ctx) <$> es).
Proof.
  intros Hrun es Hknown. apply walk_Ok in Hrun as [_ ->]. fold es.
  rewrite (replay_known es ctx Hknown). simpl. split; [done|]. split; [done|].
  clear Hknown. generalize (archive ctx) as log.
  induction es as [|e es IH]; intros log; simpl; [by rewrite !app_nil_r|].
  rewrite (cons_middle (WHeader _)), app_assoc, IH, records_link.
  by rewrite <- app_assoc.
Qed.

(** The sample tree walked twice: the second walk leaves the table alone. *)
Lemma known_tree_is_only_linked_witness :
  let ctx1 := snd (addDir (Ext := Demo.sound) "root" Demo.tree true (Demo.fresh "root")) in
  let ctx2 := snd (addDir (Ext := Demo.sound) "root" Demo.tree true ctx1) in
  mapping ctx2 = mapping ctx1.
Proof.
  intros ctx1 ctx2.
  refine (proj1 (known_tree_is_only_linked (Ext := Demo.sound) "root" Demo.tree true
                   ctx1 ctx2 _ _)).
  - vm_compute. reflexivity.
  - let l := eval vm_compute in (file_entries (Ext := Demo.sound) "root" Demo.tree true) in
    change (Forall (fun e => is_Some (mapping ctx1 !! fe_key (Ext := Demo.sound) e)) l).
    repeat (apply Forall_cons; split; [vm_compute; by eexists|]).
    apply Forall_nil_2.
Defined.

(** ** The table over a walk *)

Section TableGrows.
Context `{Ext : Extern}.

Lemma table_grows_refl ctx : table_grows ctx ctx.
Proof.
  split; [done|]. split; [done|]. intros k Hn [b Hb]. congruence.
Qed.

Lemma table_grows_trans ctx1 ctx2 ctx3 :
  table_grows ctx1 ctx2 -> table_grows ctx2 ctx3 -> table_grows ctx1 ctx3.
Proof.
  intros (Hr1 & Hs1 & Hn1) (Hr2 & Hs2 & Hn2).
  split; [congruence|]. split; [by etrans|].
  intros k Hk H3. destruct (mapping ctx2 !! k) as [b|] eqn:H2; [|by apply Hn2].
  assert (mapping ctx2 !! k = Some true) as Ht by (apply Hn1; [done|by rewrite H2]).
  by apply (lookup_weaken _ _ _ _ Ht Hs2).
Qed.

Lemma table_grows_same ctx ctx' :
  rootArchivePath ctx' = rootArchivePath ctx -> mapping ctx' = mapping ctx ->
  table_grows ctx ctx'.
Proof.
  intros Hr Hm. split; [done|]. rewrite Hm. split; [done|].
  intros k Hn [b Hb]. congruence.
Qed.

Lemma table_grows_insert ctx ctx' k :
  rootArchivePath ctx' = rootArchivePath ctx ->
  mapping ctx !! k = None ->
  mapping ctx' = <[k := true]> (mapping ctx) ->
  table_grows ctx ctx'.
Proof.
  intros Hr Hk Hm. split; [done|]. rewrite Hm. split; [by apply insert_subseteq|].
  intros k' Hn [b Hb]. destruct (decide (k = k')) as [->|Hne].
  - by rewrite lookup_insert_eq.
  - rewrite lookup_insert_ne in Hb by done. congruence.
Qed.

Lemma store_file_grows ctx e : table_grows ctx (store_file ctx e).
Proof.
  unfold store_file. destruct (mapping ctx !! fe_key e) eqn:Hm.
  - by apply table_grows_same.
  - by eapply table_grows_insert.
Qed.

Lemma replay_grows es : forall ctx, table_grows ctx (foldl store_file ctx es).
Proof.
  induction es as [|e es IH]; intros ctx; simpl; [apply table_grows_refl|].
  eapply table_grows_trans; [apply store_file_grows|apply IH].
Qed.

Lemma file_failure_grows archivePath fi f ctx e ctx' :
  file_failure archivePath fi f ctx e ctx' -> table_grows ctx ctx'.
Proof.
  intros Hf. destruct Hf; try apply table_grows_refl; try by apply table_grows_same.
  by eapply table_grows_insert.
Qed.

Lemma enter_table_grows it ctx r ctx' : enter it ctx = (r, ctx') -> table_grows ctx ctx'.
Proof.
  destruct r as [[]|e]; intros H.
  - assert (Heach : each [it] ctx = (Ok tt, ctx')) by (simpl; by rewrite bind_ret_unit).
    apply each_Ok in Heach as [_ ->]. apply replay_grows.
  - apply enter_Fail in H. destruct H; try apply table_grows_refl.
    by eapply file_failure_grows.
Qed.

Lemma each_table_grows its : forall ctx r ctx',
  each its ctx = (r, ctx') -> table_grows ctx ctx'.
Proof.
  induction its as [|it its IH]; intros ctx r ctx'; simpl.
  { intros [= <- <-]. apply table_grows_refl. }
  unfold bind. destruct (enter it ctx) as [[[]|e] c1] eqn:Hit.
  - intros H. eapply table_grows_trans; [by eapply enter_table_grows|by eapply IH].
  - intros [= <- <-]. by eapply enter_table_grows.
Qed.

Lemma replay_present es : forall ctx e,
  e ∈ es -> is_Some (mapping (foldl store_file ctx es) !! fe_key e).
Proof.
  induction es as [|e0 es IH]; intros ctx e; [by inversion 1|].
  intros [->|He]%elem_of_cons; simpl; [|by apply IH].
  assert (Hnow : is_Some (mapping (store_file ctx e0) !! fe_key e0)).
  { unfold store_file. destruct (mapping ctx !! fe_key e0) eqn:Hm; simpl.
    - by rewrite Hm.
    - by rewrite lookup_insert_eq. }
  destruct Hnow as [b Hb].
  destruct (replay_grows es (store_file ctx e0)) as (_ & Hsub & _).
  exists b. by apply (lookup_weaken _ _ _ _ Hb Hsub).
Qed.

End TableGrows.

(** X6. Over a walk, whatever its outcome, the root name in the context does
    not change, no entry of the table is removed or altered, and every entry
    that is added has the value [true]; after a completed walk the hash key
    of every file entry is in the table. *)
Theorem table_only_grows `{Ext : Extern}
    (archivePath : string) (dir : fsnode) (isRoot : bool)
    (ctx : creationContext) (r : result unit) (ctx' : creationContext) :
  addDir archivePath dir isRoot ctx = (r, ctx') ->
  rootArchivePath ctx' = rootArchivePath ctx
  /\ mapping ctx ⊆ mapping ctx'
  /\ (forall k, mapping ctx !! k = None -> is_Some (mapping ctx' !! k) ->
                mapping ctx' !! k = Some true)
  /\ (r = Ok tt ->
      forall e, e ∈ file_entries archivePath dir isRoot ->
                is_Some (mapping ctx' !! fe_key e)).
Proof.
  intros Hrun.
  assert (Hg : table_grows ctx ctx').
  { rewrite walk_flat in Hrun. unfold bind in Hrun.
    destruct (File_Readdir dir); simpl in Hrun.
    - injection Hrun as <- <-. apply table_grows_refl.
    - by eapply each_table_grows. }
  destruct Hg as (Hr & Hs & Hn). do 3 (split; [done|]).
  intros -> e He. apply walk_Ok in Hrun as [_ ->]. by apply replay_present.
Qed.

Lemma table_only_grows_witness :
  let seen := mkCtx "root" [] {[ "#old" := false ]} in
  let ctx' := snd (addDir (Ext := Demo.sound) "root" Demo.broken true seen) in
  mapping seen ⊆ mapping ctx'.
Proof.
  intros seen ctx'.
  refine (proj1 (proj2 (table_only_grows (Ext := Demo.sound) "root" Demo.broken true seen
                          (Fail Demo.denied) ctx' _))).
  vm_compute. reflexivity.
Defined.

(** ** Counting *)

Section Counting.
Context `{Ext : Extern}.

Lemma replay_size es : forall ctx earlier,
  table_is (mapping ctx) earlier ->
  size (mapping (foldl store_file ctx es))
  = (size (mapping ctx) + length (first_seen earlier es))%nat.
Proof.
  induction es as [|e es IH]; intros ctx earlier Ht; simpl; [lia|].
  rewrite (IH _ (fe_key e :: earlier)) by by apply store_file_table.
  unfold store_file. destruct (mapping ctx !! fe_key e) as [b|] eqn:Hm; simpl.
  - rewrite decide_True by (apply Ht; eauto). done.
  - rewrite decide_False by (rewrite (Ht _), Hm; by intros [? ?]).
    rewrite map_size_insert_None by done. simpl. lia.
Qed.

Lemma first_seen_length es : forall earlier,
  (length (first_seen earlier es) <= length es)%nat.
Proof.
  induction es as [|e es IH]; intros earlier; simpl; [lia|].
  destruct (decide _); simpl; specialize (IH (fe_key e :: earlier)); lia.
Qed.

Lemma walk_records_length root es : forall earlier,
  length (walk_records root earlier es)
  = (length es + length (first_seen earlier es))%nat.
Proof.
  induction es as [|e es IH]; intros earlier; simpl; [done|].
  rewrite length_app. simpl. rewrite IH.
  destruct (decide _); simpl; lia.
Qed.

End Counting.

(** X7. After a completed walk from an empty table, the table has as many
    keys as the archive has stored blobs, and the archive has one record per
    file entry plus one per key: never more than two records per file. *)
Theorem table_size_counts_stored_blobs `{Ext : Extern}
    (root archivePath : string) (dir : fsnode) (isRoot : bool) (ctx' : creationContext) :
  headers_never_link ->
  addDir archivePath dir isRoot (mkCtx root [] ∅) = (Ok tt, ctx') ->
  let es := file_entries archivePath dir isRoot in
  size (mapping ctx') = length (stored_blobs (archive ctx'))
  /\ length (records (archive ctx')) = (length es + size (mapping ctx'))%nat
  /\ (length (records (archive ctx')) <= 2 * length es)%nat.
Proof.
  intros Hnl Hrun es.
  destruct (walk_from_fresh _ _ _ _ _ _ Hrun) as (Hs & Hrec & _). fold es in Hs, Hrec.
  assert (Hsize : size (mapping ctx') = length (first_seen [] es)).
  { apply walk_Ok in Hrun as [_ ->]. fold es.
    rewrite (replay_size es (mkCtx root [] ∅) [] table_is_empty). simpl.
    by rewrite map_size_empty. }
  pose proof (first_seen_length es []) as Hle.
  unfold stored_blobs. rewrite Hrec, walk_records_blobs, length_fmap by done.
  rewrite walk_records_length, Hsize. lia.
Qed.

Lemma table_size_counts_stored_blobs_witness :
  let ctx' := snd (addDir (Ext := Demo.sound) "root" Demo.tree true (Demo.fresh "root")) in
  size (mapping ctx') = length (stored_blobs (archive ctx')).
Proof.
  intros ctx'.
  refine (proj1 (table_size_counts_stored_blobs (Ext := Demo.sound) "root" "root" Demo.tree
                   true ctx' (demo_never_link _ _) _)).
  vm_compute. reflexivity.
Defined.

(** X8. In the archive of a completed walk from an empty table no two stored
    blobs have the same body, and every body is the content of a file entry.
    Where no two file entries with different contents share a hash key, every
    content in the tree is the body of a stored blob: one stored blob per
    distinct content. *)
Theorem one_stored_blob_per_content `{Ext : Extern}
    (root archivePath : string) (dir : fsnode) (isRoot : bool) (ctx' : creationContext) :
  headers_never_link ->
  addDir archivePath dir isRoot (mkCtx root [] ∅) = (Ok tt, ctx') ->
  let es := file_entries archivePath dir isRoot in
  let contents := (fun e => content_of (fe_node e)) <$> es in
  let bodies := snd <$> stored_blobs (archive ctx') in
  NoDup bodies
  /\ (forall d, d ∈ bodies -> d ∈ contents)
  /\ ((forall e1 e2, e1 ∈ es -> e2 ∈ es -> fe_key e1 = fe_key e2 ->
         content_of (fe_node e1) = content_of (fe_node e2)) ->
      forall d, d ∈ contents -> d ∈ bodies).
Proof.
  intros Hnl Hrun es contents bodies.
  destruct (walk_from_fresh _ _ _ _ _ _ Hrun) as (Hs & Hrec & _). fold es in Hs, Hrec.
  assert (Hbodies : bodies = (fun e => content_of (fe_node e)) <$> first_seen [] es).
  { subst bodies. unfold stored_blobs.
    rewrite Hrec, walk_records_blobs by done. by rewrite <- list_fmap_compose. }
  rewrite Hbodies. split.
  { apply (NoDup_fmap_1 hashKey_of). rewrite <- list_fmap_compose.
    apply (first_seen_NoDup [] es). }
  split.
  { intros d (e & -> & [_ He]%first_seen_fresh)%list_elem_of_fmap.
    by apply (list_elem_of_fmap_2 (fun e => content_of (fe_node e))). }
  intros Hnocoll d (e & -> & He)%list_elem_of_fmap.
  assert (Hk : fe_key e ∈ fe_key <$> first_seen [] es).
  { apply first_seen_keys. split; [by apply list_elem_of_fmap_2|by inversion 1]. }
  apply list_elem_of_fmap in Hk as (e' & Hk & He').
  rewrite (Hnocoll e e' He);
    [by apply (list_elem_of_fmap_2 (fun e => content_of (fe_node e)))| |done].
  by apply first_seen_fresh in He' as [_ ?].
Qed.

Lemma one_stored_blob_per_content_witness :
  let ctx' := snd (addDir (Ext := Demo.sound) "root" Demo.tree true (Demo.fresh "root")) in
  NoDup (snd <$> stored_blobs (archive ctx')).
Proof.
  intros ctx'.
  refine (proj1 (one_stored_blob_per_content (Ext := Demo.sound) "root" "root" Demo.tree
                   true ctx' (demo_never_link _ _) _)).
  vm_compute. reflexivity.
Defined.

(** ** The command at the edges *)

Section Edges.
Context `{Ext : Extern}.

Lemma range_all_skipped archivePath entries ctx :
  Forall (fun en => fi_Name (fst en) = ".backing_store") entries ->
  range_entries archivePath true entries ctx = (Ok tt, ctx).
Proof.
  induction 1 as [|[fi n] rest Hname _ IH]; [done|].
  simpl in *. rewrite Hname. exact IH.
Qed.

End Edges.

(** X9. A root directory that is empty, or holds nothing but entries named
    [.backing_store], gives an empty archive: nothing is opened, hashed or
    written, and when both closes succeed the command exits with 0 and a
    silent error stream. *)
Theorem empty_root_gives_empty_archive `{Ext : Extern}
    (host : Host) (inv : Invocation) (arg root : string)
    (entries : list (FileInfo * fsnode)) :
  flag_Args inv = [arg] ->
  filepath_Abs host arg = inr root ->
  node_at host root = Directory (inr entries) ->
  Forall (fun en => fi_Name (fst en) = ".backing_store") entries ->
  archive_Close_fault host [] = None ->
  output_Close_fault host (shouldCompress inv) [] = None ->
  main host inv = mkExit 0 [] [].
Proof.
  intros Hargs Habs Hnode Hall Hclose Hout.
  unfold main. rewrite Hargs. cbn [length Nat.eqb negb nth].
  rewrite Habs, Hnode. cbn [os_OpenFile].
  rewrite addDir_listing, range_all_skipped by done. cbn [archive].
  by rewrite Hclose, Hout.
Qed.

(** X10. A root path that opens as a regular file is not walked: listing it
    fails, and the command exits with -1 after printing that error, with
    nothing written to the archive. *)
Theorem file_as_root_is_refused `{Ext : Extern}
    (host : Host) (inv : Invocation) (arg root : string)
    (data : list byte) (flt : FileFaults) :
  flag_Args inv = [arg] ->
  filepath_Abs host arg = inr root ->
  node_at host root = RegularFile data flt ->
  main host inv = mkExit (-1) [error_line ENOTDIR] [].
Proof.
  intros Hargs Habs Hnode.
  unfold main. rewrite Hargs. cbn [length Nat.eqb negb nth].
  by rewrite Habs, Hnode.
Qed.

(** X11. What the command writes when it exits with 0: the walk of the
    root, under the base name of its absolute path, from an empty table.
    The records are those of the root's file entries in the order of the
    walk: the stored blobs of the first occurrences, one link per file
    entry; the error stream is silent. *)
Theorem exit_zero_output_is_deduplicated `{Ext : Extern}
    (host : Host) (inv : Invocation) :
  headers_never_link ->
  length (flag_Args inv) = 1%nat ->
  exit_code (main host inv) = 0 ->
  exists root f,
    filepath_Abs host (nth 0 (flag_Args inv) "") = inr root
    /\ os_OpenFile (node_at host root) = inr f
    /\ let base := snd (filepath_Split host root) in
       let es := file_entries base f true in
       let out := main host inv in
       stderr out = []
       /\ records (stdout out) = walk_records base [] es
       /\ stored_blobs (stdout out) = blob_of base <$> first_seen [] es
       /\ link_records (stdout out) = link_of base <$> es.
Proof.
  intros Hnl Hn Hexit.
  destruct (main_outcome host inv Hn) as [(c & Hs & Hmain)|(err & log & _ & Hmain)];
    rewrite Hmain in *; [|discriminate Hexit].
  destruct Hs as (root & f & Habs & Hopen & Hwalk & _).
  exists root, f. split; [done|]. split; [done|]. simpl.
  destruct (walk_from_fresh _ _ _ _ _ _ Hwalk) as (Hst & Hrec & _).
  split; [done|]. split; [done|].
  unfold stored_blobs, link_records. rewrite Hrec.
  by rewrite walk_records_blobs, walk_records_links.
Qed.

(** X12. Walking a directory is walking its entries in sequence with one
    shared context: for a listing in two parts, the walk of the whole is the
    walk of the first part followed, if that returns [nil], by the walk of
    the second part from the context the first left. *)
Theorem walk_of_a_listing_in_parts `{Ext : Extern}
    (archivePath : string) (part1 part2 : list (FileInfo * fsnode)) (isRoot : bool)
    (ctx : creationContext) :
  addDir archivePath (Directory (inr (part1 ++ part2))) isRoot ctx
  = match addDir archivePath (Directory (inr part1)) isRoot ctx with
    | (Ok _, ctx1) => addDir archivePath (Directory (inr part2)) isRoot ctx1
    | (Fail err, ctx1) => (Fail err, ctx1)
    end.
Proof.
  rewrite !addDir_listing. revert ctx.
  induction part1 as [|[fi n] rest IH]; intros ctx; [done|].
  simpl. destruct (isRoot && String.eqb (fi_Name fi) backing_store); [apply IH|].
  unfold bind. destruct (addEntry _ fi n ctx) as [[[]|e] c1]; [apply IH|done].
Qed.

Lemma walk_of_a_listing_in_parts_witness :
  addDir (Ext := Demo.sound) "root"
    (Directory (inr ([ (Demo.reg "a.txt" 2, Demo.file "hi") ]
                     ++ [ (Demo.reg "b.txt" 2, Demo.file "hi") ]))) true (Demo.fresh "root")
  = addDir (Ext := Demo.sound) "root"
      (Directory (inr [ (Demo.reg "b.txt" 2, Demo.file "hi") ])) true
      (snd (addDir (Ext := Demo.sound) "root"
              (Directory (inr [ (Demo.reg "a.txt" 2, Demo.file "hi") ])) true
              (Demo.fresh "root"))).
Proof.
  rewrite (walk_of_a_listing_in_parts (Ext := Demo.sound)). vm_compute. reflexivity.
Defined.

(** A root whose only entry is a locked [.backing_store]. *)
Lemma empty_root_gives_empty_archive_witness :
  let host := mkHost (fun p => inr ("/srv/" +:+ p)) split_path ""
                     (fun _ => Directory (inr [ (Demo.subdir ".backing_store",
                                                 Unopenable Demo.denied) ]))
                     (fun _ => None) (fun _ _ => None) in
  main (Ext := Demo.sound) host (mkInvocation "tarmac" true ["root"]) = mkExit 0 [] [].
Proof.
  intros host.
  apply (empty_root_gives_empty_archive (Ext := Demo.sound) host
           (mkInvocation "tarmac" true ["root"]) "root" "/srv/root"
           [ (Demo.subdir ".backing_store", Unopenable Demo.denied) ]);
    try reflexivity.
  apply Forall_cons. split; [reflexivity|apply Forall_nil_2].
Defined.

Lemma file_as_root_is_refused_witness :
  let host := mkHost (fun p => inr ("/srv/" +:+ p)) split_path ""
                     (fun _ => Demo.file "not a directory")
                     (fun _ => None) (fun _ _ => None) in
  main (Ext := Demo.sound) host (mkInvocation "tarmac" false ["notes.txt"])
  = mkExit (-1) [error_line ENOTDIR] [].
Proof.
  intros host.
  apply (file_as_root_is_refused (Ext := Demo.sound) host
           (mkInvocation "tarmac" false ["notes.txt"]) "notes.txt" "/srv/notes.txt"
           (list_byte_of_string "not a directory") no_faults); reflexivity.
Defined.

Lemma exit_zero_output_is_deduplicated_witness :
  length (link_records (stdout (main (Ext := Demo.sound) demo_host
                                     (mkInvocation "tarmac" false ["root"])))) = 3%nat.
Proof.
  destruct (exit_zero_output_is_deduplicated (Ext := Demo.sound) demo_host
              (mkInvocation "tarmac" false ["root"]) (demo_never_link _ _) eq_refl)
    as (root & f & Habs & Hopen & _ & _ & _ & Hlinks).
  - vm_compute. reflexivity.
  - vm_compute in Habs. injection Habs as <-.
    vm_compute in Hopen. injection Hopen as <-.
    rewrite Hlinks, length_fmap. vm_compute. reflexivity.
Defined.

(** ** What a failed entry leaves in the archive *)

Section Prefix.
Context `{Ext : Extern}.

Lemma read_again_prefix f d :
  File_read_first f = (d, None) ->
  exists m, fst (File_read_again f) = take m d.
Proof.
  destruct f as [e|data flt|l]; simpl; try discriminate.
  unfold read_with. destruct (hash_read_fault flt) as [[k e]|]; [discriminate|].
  intros [= <-]. destruct (copy_read_fault flt) as [[k e]|]; simpl.
  - by exists k.
  - exists (length data). by rewrite firstn_all.
Qed.

End Prefix.

(** X13. When [addEntry] fails on a file entry, either nothing was written
    and the table is as before, or the entry's content was new and what was
    appended is exactly its stored-blob header followed by a body that is a
    prefix of the file's bytes: a failure never leaves a link, a foreign
    byte or a second header behind. *)
Theorem failed_entry_leaves_a_prefix `{Ext : Extern}
    (archivePath : string) (fi : FileInfo) (n : fsnode)
    (ctx : creationContext) (e : error) (ctx' : creationContext) :
  is_directory_entry fi = false ->
  addEntry archivePath fi n ctx = (Fail e, ctx') ->
  ctx' = ctx
  \/ exists h m,
       let target := backing_path (rootArchivePath ctx) (hashKey_of (content_of n)) in
       tar_FileInfoHeader fi "" = inr h
       /\ mapping ctx !! hashKey_of (content_of n) = None
       /\ rootArchivePath ctx' = rootArchivePath ctx
       /\ archive ctx' = archive ctx ++ [WHeader (set_Name h target);
                                         WBody (take m (content_of n))].
Proof.
  intros Hfile H.
  apply addEntry_file_Fail in H as [[_ ->]|[_ Hf]]; [by left| |done].
  destruct Hf as [| | | |d h k e ? Hr Hm ? Hh|d h e ? Hr Hm ? Hh
                 |d h e ? ? ? Hr Hm ? Hh|]; try by left.
  - right. destruct (read_again_prefix _ _ Hr) as [m Hm'].
    apply read_first_eof in Hr as [Hc _]. subst blob. rewrite Hc, Hm'.
    exists h, (Nat.min k m). rewrite take_take. by repeat split.
  - right. destruct (read_again_prefix _ _ Hr) as [m Hm'].
    apply read_first_eof in Hr as [Hc _]. subst blob. rewrite Hc, Hm'.
    exists h, m. by repeat split.
  - right. destruct (read_again_prefix _ _ Hr) as [m Hm'].
    apply read_first_eof in Hr as [Hc _]. subst stored blob target. rewrite Hc, Hm'.
    exists h, m. by repeat split.
Qed.

(** The writer gives up after one byte of the body. *)
Lemma failed_entry_leaves_a_prefix_witness :
  let full := Demo.ext (fun _ _ => None)
                       (fun _ _ => Some (1%nat, "write /dev/stdout: no space left on device")) in
  let ctx' := snd (addEntry (Ext := full) "root/a.txt" (Demo.reg "a.txt" 2) (Demo.file "hi")
                            (Demo.fresh "root")) in
  ctx' = Demo.fresh "root"
  \/ exists h m,
       tar_FileInfoHeader (Extern := full) (Demo.reg "a.txt" 2) "" = inr h
       /\ mapping (Demo.fresh "root") !! "#hi" = None
       /\ rootArchivePath ctx' = "root"
       /\ archive ctx' = [WHeader (set_Name h "root/.backing_store/#hi");
                          WBody (take m (list_byte_of_string "hi"))].
Proof.
  intros full ctx'.
  refine (failed_entry_leaves_a_prefix (Ext := full) "root/a.txt" (Demo.reg "a.txt" 2)
            (Demo.file "hi") (Demo.fresh "root")
            "write /dev/stdout: no space left on device" ctx' _ _).
  - vm_compute. reflexivity.
  - vm_compute. reflexivity.
Defined.
